(** * Cosmic Zoom tile viewer: the viewport, tile cache and fetch loop of
    [website/public/app.js], embedded as functions on an explicit state.

    Conventions of the embedding.
    - A JavaScript [Number] is an exact rational ([Q]); rounding, NaN and
      infinities are not modelled.  The zoom level, tile indices and the
      canvas size are integers ([Z]).
    - The module-level variables of [app.js] are the fields of [State], with
      the canvas size.  Two more fields stand for the event loop and the
      network: [pending], the activations of the async function
      [loadVisibleTiles] that are suspended at an [await], and [requests],
      the log of the tile requests sent by [fetch].
    - JavaScript runs every handler to completion; a state of the model is a
      state between two handlers, and an [Event] is one handler run.  The
      event [EvSettle] resumes a suspended activation.
    - Writes to the DOM ([updateInfo], [updateCacheStatus],
      [updateProductInfo]) and to the console are left out, and so are
      [render], which only reads the state, and the two cache-generation
      handlers, which act on the state only through a later [loadProducts]
      (the event [EvProductsLoaded]). *)

From Stdlib Require Import ZArith QArith Qround Qminmax Qpower Lia Lqa.
From Stdlib Require Import Ascii.
From stdpp Require Import gmap strings list pretty.

Local Open Scope Z_scope.

(** ** Configuration *)

Definition TILE_SIZE : Z := 256.

(** ** Data *)

(** An entry of the product list served by the API. *)
Record Product := {
  id : string;
  max_zoom : Z
}.

(** [{ x, y }] object literals: [pan], [dragStart]. *)
Record Point := {
  px : Q;
  py : Q
}.

(** [{ row, col, zoom }] as pushed by [getVisibleTiles]. *)
Record Tile := {
  row : Z;
  col : Z;
  tzoom : Z
}.

(** The tile request [`${API_URL}/tile/${id}/${zoom}/${row}/${col}`]. *)
Record Request := {
  req_product : string;
  req_tile : Tile
}.

(** A decoded [Image]; it is identified by the request it was loaded from. *)
Record Image := {
  img_src : Request
}.

(** A suspended activation of [loadVisibleTiles]: the key it marked in
    [loadingTiles], the request it awaits, and the tiles of its
    [visibleTiles] array the [for] loop has not reached yet. *)
Record Task := {
  t_key : string;
  t_req : Request;
  t_rest : list Tile
}.

Record State := {
  currentProduct : option Product;
  zoom : Z;
  pan : Point;
  isDragging : bool;
  dragStart : Point;
  tileImages : gmap string Image;
  loadingTiles : gset string;
  canvas_width : Z;
  canvas_height : Z;
  pending : list Task;
  requests : list Request
}.

(** Field updates. *)
Definition set_currentProduct (p : option Product) (s : State) : State :=
  {| currentProduct := p; zoom := zoom s; pan := pan s;
     isDragging := isDragging s; dragStart := dragStart s;
     tileImages := tileImages s; loadingTiles := loadingTiles s;
     canvas_width := canvas_width s; canvas_height := canvas_height s;
     pending := pending s; requests := requests s |}.

Definition set_zoom (z : Z) (s : State) : State :=
  {| currentProduct := currentProduct s; zoom := z; pan := pan s;
     isDragging := isDragging s; dragStart := dragStart s;
     tileImages := tileImages s; loadingTiles := loadingTiles s;
     canvas_width := canvas_width s; canvas_height := canvas_height s;
     pending := pending s; requests := requests s |}.

Definition set_pan (p : Point) (s : State) : State :=
  {| currentProduct := currentProduct s; zoom := zoom s; pan := p;
     isDragging := isDragging s; dragStart := dragStart s;
     tileImages := tileImages s; loadingTiles := loadingTiles s;
     canvas_width := canvas_width s; canvas_height := canvas_height s;
     pending := pending s; requests := requests s |}.

Definition set_isDragging (b : bool) (s : State) : State :=
  {| currentProduct := currentProduct s; zoom := zoom s; pan := pan s;
     isDragging := b; dragStart := dragStart s;
     tileImages := tileImages s; loadingTiles := loadingTiles s;
     canvas_width := canvas_width s; canvas_height := canvas_height s;
     pending := pending s; requests := requests s |}.

Definition set_dragStart (p : Point) (s : State) : State :=
  {| currentProduct := currentProduct s; zoom := zoom s; pan := pan s;
     isDragging := isDragging s; dragStart := p;
     tileImages := tileImages s; loadingTiles := loadingTiles s;
     canvas_width := canvas_width s; canvas_height := canvas_height s;
     pending := pending s; requests := requests s |}.

Definition set_tileImages (m : gmap string Image) (s : State) : State :=
  {| currentProduct := currentProduct s; zoom := zoom s; pan := pan s;
     isDragging := isDragging s; dragStart := dragStart s;
     tileImages := m; loadingTiles := loadingTiles s;
     canvas_width := canvas_width s; canvas_height := canvas_height s;
     pending := pending s; requests := requests s |}.

Definition set_loadingTiles (l : gset string) (s : State) : State :=
  {| currentProduct := currentProduct s; zoom := zoom s; pan := pan s;
     isDragging := isDragging s; dragStart := dragStart s;
     tileImages := tileImages s; loadingTiles := l;
     canvas_width := canvas_width s; canvas_height := canvas_height s;
     pending := pending s; requests := requests s |}.

Definition set_canvas (w h : Z) (s : State) : State :=
  {| currentProduct := currentProduct s; zoom := zoom s; pan := pan s;
     isDragging := isDragging s; dragStart := dragStart s;
     tileImages := tileImages s; loadingTiles := loadingTiles s;
     canvas_width := w; canvas_height := h;
     pending := pending s; requests := requests s |}.

Definition set_pending (l : list Task) (s : State) : State :=
  {| currentProduct := currentProduct s; zoom := zoom s; pan := pan s;
     isDragging := isDragging s; dragStart := dragStart s;
     tileImages := tileImages s; loadingTiles := loadingTiles s;
     canvas_width := canvas_width s; canvas_height := canvas_height s;
     pending := l; requests := requests s |}.

Definition set_requests (l : list Request) (s : State) : State :=
  {| currentProduct := currentProduct s; zoom := zoom s; pan := pan s;
     isDragging := isDragging s; dragStart := dragStart s;
     tileImages := tileImages s; loadingTiles := loadingTiles s;
     canvas_width := canvas_width s; canvas_height := canvas_height s;
     pending := pending s; requests := l |}.

(** ** Tile grid math *)

(** [Math.pow(2, z)]. *)
Definition pow2 (z : Z) : Q := Qpower (2 # 1) z.

(** [TILE_SIZE * Math.pow(2, zoom)]: the side of a tile on screen. *)
Definition tileScale (z : Z) : Q := (inject_Z TILE_SIZE * pow2 z)%Q.

(** [Math.max(0, Math.floor(-p / tileScale))]. *)
Definition startIndex (z : Z) (p : Q) : Z :=
  Z.max 0 (Qfloor (- p / tileScale z)).

(** [Math.min(tilesInView - 1, Math.ceil((size - p) / tileScale))]. *)
Definition endIndex (z : Z) (p : Q) (size : Z) : Q :=
  Qmin (pow2 z - 1) (inject_Z (Qceiling ((inject_Z size - p) / tileScale z))).

(** The values taken by [i] in [for (let i = a; i <= b; i++)]. *)
Definition loop_range (a : Z) (b : Q) : list Z :=
  seqZ a (Qfloor b - a + 1).

(** The body of [getVisibleTiles] below the product guard. *)
Definition visibleTilesAt (z : Z) (p : Point) (w h : Z) : list Tile :=
  r ← loop_range (startIndex z (py p)) (endIndex z (py p) h);
  c ← loop_range (startIndex z (px p)) (endIndex z (px p) w);
  [ {| row := r; col := c; tzoom := z |} ].

Definition getVisibleTiles (s : State) : list Tile :=
  match currentProduct s with
  | None => []
  | Some _ => visibleTilesAt (zoom s) (pan s) (canvas_width s) (canvas_height s)
  end.

(** [`${tile.zoom}-${tile.row}-${tile.col}`] *)
Definition tileKey (t : Tile) : string :=
  pretty (tzoom t) +:+ "-" +:+ pretty (row t) +:+ "-" +:+ pretty (col t).

(** ** Tile cache *)

(** [clearTileCache]: [tileImages.clear(); loadingTiles.clear()]. *)
Definition clearTileCache (s : State) : State :=
  set_loadingTiles ∅ (set_tileImages ∅ s).

(** The guard [!tileImages.has(key) && !loadingTiles.has(key)]. *)
Definition needs_fetch (s : State) (key : string) : bool :=
  bool_decide (tileImages s !! key = None) && bool_decide (key ∉ loadingTiles s).

(** ** Fetch loop *)

(** How the chain [fetch] / [response.ok] / [response.blob()] / image load of
    one tile ends.  The awaits of the chain touch no variable of the module,
    so they are one suspension point of the model.
    - [Loaded]: the response was ok and the image decoded ([img.onload]);
    - [NotFound]: [response.ok] was false;
    - [TransportError]: [fetch] (or [blob]) rejected;
    - [DecodeError]: [img.onerror] rejected the load promise. *)
Inductive Outcome := Loaded | NotFound | TransportError | DecodeError.

(** The [for (const tile of visibleTiles)] loop of [loadVisibleTiles], run from
    the tiles not yet visited up to its next [await] (result [Some task]) or
    to its end (result [None]).  A tile that passes the guard is marked in
    [loadingTiles] and its request is sent.  Building the URL reads
    [currentProduct.id]: without a product that throws inside the [try], the
    [catch] logs it, the [finally] unmarks the key, and the loop goes on. *)
Fixpoint fetchLoop (s : State) (tiles : list Tile) : State * option Task :=
  match tiles with
  | [] => (s, None)
  | tile :: rest =>
      let key := tileKey tile in
      if needs_fetch s key then
        let s1 := set_loadingTiles ({[ key ]} ∪ loadingTiles s) s in
        match currentProduct s1 with
        | Some p =>
            let r := {| req_product := id p; req_tile := tile |} in
            (set_requests (requests s1 ++ [r]) s1,
             Some {| t_key := key; t_req := r; t_rest := rest |})
        | None =>
            fetchLoop (set_loadingTiles (loadingTiles s1 ∖ {[ key ]}) s1) rest
        end
      else fetchLoop s rest
  end.

(** [loadVisibleTiles()], up to its first [await]. *)
Definition loadVisibleTiles (s : State) : State :=
  match currentProduct s with
  | None => s
  | Some _ =>
      let '(s', ot) := fetchLoop s (getVisibleTiles s) in
      match ot with
      | Some t => set_pending (pending s' ++ [t]) s'
      | None => s'
      end
  end.

(** The rest of the [try] and the [finally] of a suspended activation when
    its tile settles: [tileImages.set(key, img)] on success, nothing on a
    failure (the [else] branch and the [catch] only log), and
    [loadingTiles.delete(key)] in every case.  The [console.log] after
    [tileImages.set] reads [currentProduct.id]; should that throw, the
    [catch] absorbs it and the state is the same. *)
Definition finishFetch (t : Task) (o : Outcome) (s : State) : State :=
  let s1 :=
    match o with
    | Loaded =>
        set_tileImages (<[ t_key t := {| img_src := t_req t |} ]> (tileImages s)) s
    | NotFound | TransportError | DecodeError => s
    end in
  set_loadingTiles (loadingTiles s1 ∖ {[ t_key t ]}) s1.

(** The continuation of the suspended activation [i] when its tile settles
    with outcome [o]: [finishFetch], then the loop again, up to its next
    [await] or its end. *)
Definition settle (i : nat) (o : Outcome) (s : State) : option State :=
  match pending s !! i with
  | None => None
  | Some t =>
      let '(s3, ot) := fetchLoop (finishFetch t o s) (t_rest t) in
      Some (set_pending
              match ot with
              | Some t' => <[ i := t' ]> (pending s3)
              | None => delete i (pending s3)
              end s3)
  end.

(** ** Viewport controller *)

(** [resetView] *)
Definition resetView (s : State) : State :=
  set_pan {| px := inject_Z (canvas_width s) / 2 - inject_Z TILE_SIZE / 2;
             py := inject_Z (canvas_height s) / 2 - inject_Z TILE_SIZE / 2 |}
    (set_zoom 1 s).

(** The pan assigned by [setZoom] when the zoom changed. *)
Definition zoomedPan (oldZoom newZoom : Z) (p : Point) (w h : Z) : Point :=
  let centerX := (inject_Z w / 2)%Q in
  let centerY := (inject_Z h / 2)%Q in
  let scale := pow2 (newZoom - oldZoom) in
  {| px := centerX - (centerX - px p) * scale;
     py := centerY - (centerY - py p) * scale |}.

(** [Math.max(0, Math.min(max_zoom, newZoom))] *)
Definition clampZoom (p : Product) (newZoom : Z) : Z :=
  Z.max 0 (Z.min (max_zoom p) newZoom).

(** [setZoom(newZoom)] *)
Definition setZoom (newZoom : Z) (s : State) : State :=
  match currentProduct s with
  | None => s
  | Some p =>
      let oldZoom := zoom s in
      let s1 := set_zoom (clampZoom p newZoom) s in
      if negb (zoom s1 =? oldZoom) then
        loadVisibleTiles
          (clearTileCache
             (set_pan (zoomedPan oldZoom (zoom s1) (pan s1)
                         (canvas_width s1) (canvas_height s1)) s1))
      else s1
  end.

(** [handleMouseDown(e)] with [e.clientX], [e.clientY]. *)
Definition handleMouseDown (x y : Q) (s : State) : State :=
  set_dragStart {| px := x - px (pan s); py := y - py (pan s) |}
    (set_isDragging true s).

(** [handleMouseMove(e)] *)
Definition handleMouseMove (x y : Q) (s : State) : State :=
  if isDragging s then
    loadVisibleTiles
      (set_pan {| px := x - px (dragStart s); py := y - py (dragStart s) |} s)
  else s.

(** [handleMouseUp()] *)
Definition handleMouseUp (s : State) : State := set_isDragging false s.

(** [handleWheel(e)] with [e.deltaY]. *)
Definition handleWheel (deltaY : Q) (s : State) : State :=
  let delta := if Qlt_le_dec 0 deltaY then -1 else 1 in
  setZoom (zoom s + delta) s.

(** [resizeCanvas()], the canvas taking the size of its parent. *)
Definition resizeCanvas (w h : N) (s : State) : State :=
  let s1 := set_canvas (Z.of_N w) (Z.of_N h) s in
  match currentProduct s1 with
  | Some _ => loadVisibleTiles s1
  | None => s1
  end.

(** [loadProducts()] from the point where the product list has arrived. *)
Definition productsLoaded (ps : list Product) (s : State) : State :=
  match ps with
  | [] => s
  | p :: _ => resetView (set_currentProduct (Some p) s)
  end.

(** [handleProductChange(e)]; [o] is the parsed [dataset.info] of the
    selected option, if it has one. *)
Definition handleProductChange (o : option Product) (s : State) : State :=
  match o with
  | Some p =>
      loadVisibleTiles (clearTileCache (resetView (set_currentProduct (Some p) s)))
  | None => s
  end.

(** ** Event loop *)

Inductive Event :=
  | EvResize (w h : N)
  | EvProductsLoaded (ps : list Product)
  | EvProductChange (o : option Product)
  | EvZoomIn
  | EvZoomOut
  | EvResetView
  | EvWheel (deltaY : Q)
  | EvMouseDown (x y : Q)
  | EvMouseMove (x y : Q)
  | EvMouseUp
  | EvTouchStart (x y : Q)
  | EvTouchMove (x y : Q)
  | EvTouchEnd
  | EvSettle (i : nat) (o : Outcome).

(** One handler run; [None] when the event cannot occur (no such suspended
    activation). *)
Definition step (e : Event) (s : State) : option State :=
  match e with
  | EvResize w h => Some (resizeCanvas w h s)
  | EvProductsLoaded ps => Some (productsLoaded ps s)
  | EvProductChange o => Some (handleProductChange o s)
  | EvZoomIn => Some (setZoom (zoom s + 1) s)
  | EvZoomOut => Some (setZoom (zoom s - 1) s)
  | EvResetView => Some (resetView s)
  | EvWheel d => Some (handleWheel d s)
  | EvMouseDown x y | EvTouchStart x y => Some (handleMouseDown x y s)
  | EvMouseMove x y | EvTouchMove x y => Some (handleMouseMove x y s)
  | EvMouseUp | EvTouchEnd => Some (handleMouseUp s)
  | EvSettle i o => settle i o s
  end.

(** The module's initial values, after [init] has sized the canvas. *)
Definition initial (w h : N) : State :=
  {| currentProduct := None; zoom := 1; pan := {| px := 0; py := 0 |};
     isDragging := false; dragStart := {| px := 0; py := 0 |};
     tileImages := ∅; loadingTiles := ∅;
     canvas_width := Z.of_N w; canvas_height := Z.of_N h;
     pending := []; requests := [] |}.

Fixpoint run (es : list Event) (s : State) : option State :=
  match es with
  | [] => Some s
  | e :: es' =>
      match step e s with
      | Some s' => run es' s'
      | None => None
      end
  end.

Inductive reachable : State → Prop :=
  | reach_initial w h : reachable (initial w h)
  | reach_step s e s' : reachable s → step e s = Some s' → reachable s'.

(** The state after the events [es]; events that cannot occur end the run. *)
Fixpoint exec (es : list Event) (s : State) : State :=
  match es with
  | [] => s
  | e :: es' =>
      match step e s with
      | Some s' => exec es' s'
      | None => s
      end
  end.

(** One visibility pass run to its end with no other handler in between:
    the activation at index [i] is resumed with the outcomes [os], one per
    tile it requested, until it has left [pending]. *)
Fixpoint drive (os : list Outcome) (i : nat) (s : State) : State :=
  match os with
  | [] => s
  | o :: os' =>
      match settle i o s with
      | Some s' => drive os' i s'
      | None => s
      end
  end.

(** ** Observations used by the properties *)

(** The keys of a list of requests. *)
Definition keys_of (rs : list Request) : list string :=
  (λ r, tileKey (req_tile r)) <$> rs.

(** The requests sent since the log had length [n]. *)
Definition requests_since (n : nat) (s : State) : list Request :=
  drop n (requests s).

(** The fetches that have not settled yet, as (product, key). *)
Definition outstanding (s : State) : list (string * string) :=
  (λ t, (req_product (t_req t), t_key t)) <$> pending s.

(** The in-flight set is exactly the keys of the unsettled fetches, each
    awaited once. *)
Definition coherent (s : State) : Prop :=
  NoDup (t_key <$> pending s) ∧
  loadingTiles s = list_to_set (t_key <$> pending s).

(** No key is both in flight and cached. *)
Definition disjoint (s : State) : Prop :=
  ∀ k, k ∈ loadingTiles s → tileImages s !! k = None.

(** The event reaches [clearTileCache] in state [s]: a zoom request whose
    clamped target differs from the zoom, or a product change. *)
Definition zoom_changes (target : Z) (s : State) : bool :=
  match currentProduct s with
  | Some p => negb (clampZoom p target =? zoom s)
  | None => false
  end.

Definition invalidates (e : Event) (s : State) : bool :=
  match e with
  | EvZoomIn => zoom_changes (zoom s + 1) s
  | EvZoomOut => zoom_changes (zoom s - 1) s
  | EvWheel d => zoom_changes (zoom s + (if Qlt_le_dec 0 d then -1 else 1)) s
  | EvProductChange (Some _) => true
  | _ => false
  end.

(** No event of [es] invalidates the cache in the state where it occurs. *)
Fixpoint quiet (es : list Event) (s : State) : bool :=
  match es with
  | [] => true
  | e :: es' =>
      negb (invalidates e s) &&
      match step e s with
      | Some s' => quiet es' s'
      | None => true
      end
  end.

(** The fields a pass never writes. *)
Definition same_view (s s' : State) : Prop :=
  currentProduct s' = currentProduct s ∧ zoom s' = zoom s ∧ pan s' = pan s ∧
  isDragging s' = isDragging s ∧ dragStart s' = dragStart s ∧
  canvas_width s' = canvas_width s ∧ canvas_height s' = canvas_height s.


(** Along one axis, the grid (of [2^z] tiles of side [tileScale z], origin at
    [p]) ends at or before the canvas origin, or starts at least one tile
    side beyond the far edge of a canvas of the given size. *)
Definition off_grid (z : Z) (p : Q) (size : Z) : Prop :=
  (p <= - (tileScale z * pow2 z) ∨ inject_Z size + tileScale z <= p)%Q.


(** ** Sample data *)

Definition moon : Product := {| id := "moon"; max_zoom := 3 |}.

(** Zoom 1, pan (0, 0), a 1024 x 768 canvas, a product selected. *)
Definition zoom_scenario : State :=
  set_pan {| px := 0; py := 0 |}
    (set_currentProduct (Some moon) (initial 1024 768)).

(** The product list arrives and a drag starts the first visibility pass. *)
Definition first_pass : list Event :=
  [EvProductsLoaded [moon]; EvMouseDown 0 0; EvMouseMove 0 0].

(** Zoom in and back out while the first fetch of [first_pass] is unsettled. *)
Definition zoom_round_trip : list Event :=
  first_pass ++ [EvZoomIn; EvZoomOut].

(** Zoom in while the first fetch is unsettled; then that fetch succeeds. *)
Definition stale_arrival : list Event :=
  first_pass ++ [EvZoomIn; EvSettle 0 Loaded].

(** The first fetch succeeds; the pointer keeps moving. *)
Definition pan_while_loading : list Event :=
  first_pass ++ [EvMouseMove 3 4; EvSettle 0 Loaded; EvMouseMove 8 9].

(** A drag before any product is selected. *)
Definition early_drag : list Event :=
  [EvMouseDown 10 10; EvMouseMove 50 60].

(** A product with the single zoom level 0. *)
Definition flat : Product := {| id := "flat"; max_zoom := 0 |}.

(** ** Render loop *)

(** What [render] paints in the square of a visible tile: the cached image,
    or the placeholder with the text "Downloading..." when the key is in
    [loadingTiles], or the placeholder with the text "Tile". *)
Inductive Painted :=
  | PaintImage (img : Image)
  | PaintDownloading
  | PaintIdle.

(** One iteration of the [forEach] of [render]: the square
    [(x, y, tileScale, tileScale)] and what is painted in it. *)
Record DrawOp := {
  d_tile : Tile;
  d_x : Q;
  d_y : Q;
  d_size : Q;
  d_what : Painted
}.

Definition drawTile (s : State) (u : Tile) : DrawOp :=
  let key := tileKey u in
  {| d_tile := u;
     d_x := inject_Z (col u) * tileScale (zoom s) + px (pan s);
     d_y := inject_Z (row u) * tileScale (zoom s) + py (pan s);
     d_size := tileScale (zoom s);
     d_what :=
       match tileImages s !! key with
       | Some img => PaintImage img
       | None =>
           if bool_decide (key ∈ loadingTiles s) then PaintDownloading
           else PaintIdle
       end |}.

(** One frame of [render]: the welcome message without a product, the
    squares of the visible tiles otherwise.  The state is only read. *)
Inductive Frame :=
  | FrameWelcome
  | FrameTiles (ops : list DrawOp).

Definition render (s : State) : Frame :=
  match currentProduct s with
  | Some _ => FrameTiles (drawTile s <$> getVisibleTiles s)
  | None => FrameWelcome
  end.

(** ** Quick cache *)

(** The query of
    [`${API_URL}/generate/${id}?zoom=..&start_row=..&end_row=..&start_col=..&end_col=..`]. *)
Record GenerateRequest := {
  g_product : string;
  g_zoom : Z;
  g_start_row : Z;
  g_end_row : Z;
  g_start_col : Z;
  g_end_col : Z
}.

(** [Math.min(...l)] and [Math.max(...l)] of the non-empty array [x :: l]. *)
Definition MathMin (x : Z) (l : list Z) : Z := foldr Z.min x l.
Definition MathMax (x : Z) (l : list Z) : Z := foldr Z.max x l.

(** [handleQuickCache] up to its [fetch]: an [alert], or the POST it sends.
    What follows the [fetch] writes the button and sets timers only. *)
Inductive QuickCache :=
  | QuickAlert (msg : string)
  | QuickPost (g : GenerateRequest).

Definition handleQuickCache (s : State) : QuickCache :=
  match currentProduct s with
  | None => QuickAlert "Please select a product first"
  | Some p =>
      match getVisibleTiles s with
      | [] => QuickAlert "No tiles to cache"
      | u :: us =>
          QuickPost
            {| g_product := id p;
               g_zoom := tzoom u;
               g_start_row := MathMin (row u) (row <$> us);
               g_end_row := MathMax (row u) (row <$> us);
               g_start_col := MathMin (col u) (col <$> us);
               g_end_col := MathMax (col u) (col <$> us) |}
      end
  end.

(** ** Well-formed states *)

(** A tile of the grid of its zoom level. *)
Definition valid_tile (u : Tile) : Prop :=
  0 ≤ tzoom u ∧ 0 ≤ row u < 2 ^ tzoom u ∧ 0 ≤ col u < 2 ^ tzoom u.

(** The request of the tile [u] for the product [p]. *)
Definition tileRequest (p : Product) (u : Tile) : Request :=
  {| req_product := id p; req_tile := u |}.

(** The bookkeeping of the fetches, for the suspended activations [ts]:
    every request sent is for a tile of the grid; a suspended activation
    awaits a request that was sent, under the key of its tile, and has tiles
    of the grid left; a cached image is filed under the key of the tile it
    was requested for; a key in flight is the key of a suspended
    activation. *)
Definition bookkeeping (ts : list Task) (s : State) : Prop :=
  Forall (λ r, valid_tile (req_tile r)) (requests s) ∧
  Forall (λ t, t_key t = tileKey (req_tile (t_req t)) ∧
               t_req t ∈ requests s ∧
               Forall valid_tile (t_rest t)) ts ∧
  (∀ k img, tileImages s !! k = Some img →
            k = tileKey (req_tile (img_src img)) ∧ img_src img ∈ requests s) ∧
  (∀ k, k ∈ loadingTiles s → k ∈ t_key <$> ts).

Definition store_ok (s : State) : Prop := bookkeeping (pending s) s.

(** The zoom is in range, and before a product is selected nothing has been
    requested. *)
Definition view_ok (s : State) : Prop :=
  0 ≤ zoom s ∧
  match currentProduct s with
  | Some p => zoom s ≤ Z.max 1 (max_zoom p)
  | None =>
      zoom s = 1 ∧ requests s = [] ∧ pending s = [] ∧
      tileImages s = ∅ ∧ loadingTiles s = ∅
  end.

(** No character of the string is a dash. *)
Fixpoint no_dash (s : string) : Prop :=
  match s with
  | EmptyString => True
  | String c s' => c ≠ "-"%char ∧ no_dash s'
  end.

(** * Checks on sample inputs *)

Example visible_2x2 :
  visibleTilesAt 1 {| px := 0; py := 0 |} 1024 768 =
  [ {| row := 0; col := 0; tzoom := 1 |}; {| row := 0; col := 1; tzoom := 1 |};
    {| row := 1; col := 0; tzoom := 1 |}; {| row := 1; col := 1; tzoom := 1 |} ].
Proof. reflexivity. Qed.

Example tileKey_ex : tileKey {| row := 2; col := 5; tzoom := 3 |} = "3-2-5".
Proof. reflexivity. Qed.


(** * Properties *)

(** ** The fetch loop *)

Lemma same_view_refl s : same_view s s.
Proof. by repeat split. Qed.

Lemma same_view_trans s1 s2 s3 :
  same_view s1 s2 → same_view s2 s3 → same_view s1 s3.
Proof. unfold same_view. intuition congruence. Qed.

Lemma set_zoom_same s : set_zoom (zoom s) s = s.
Proof. by destruct s. Qed.

Lemma needs_fetch_true s k :
  needs_fetch s k = true ↔ tileImages s !! k = None ∧ k ∉ loadingTiles s.
Proof.
  unfold needs_fetch. rewrite andb_true_iff, !bool_decide_eq_true. done.
Qed.

Lemma needs_fetch_false s k :
  needs_fetch s k = false ↔ is_Some (tileImages s !! k) ∨ k ∈ loadingTiles s.
Proof.
  unfold needs_fetch. rewrite andb_false_iff, !bool_decide_eq_false.
  rewrite <-not_eq_None_Some. split.
  - intros [H|H]; [by left|right]. by apply dec_stable.
  - intros [H|H]; [by left|right]. by intros ?.
Qed.

(** Marking and unmarking a key that was not marked restores the state. *)
Lemma mark_unmark s k :
  k ∉ loadingTiles s →
  set_loadingTiles (loadingTiles (set_loadingTiles ({[ k ]} ∪ loadingTiles s) s) ∖ {[ k ]})
    (set_loadingTiles ({[ k ]} ∪ loadingTiles s) s) = s.
Proof.
  intros Hk. destruct s as [cp z p dr ds ti lt cw ch pe rq].
  unfold set_loadingTiles; cbn in *. f_equal. set_solver.
Qed.

(** What one run of the loop does: either it stops at the first tile that
    passes the guard, having marked it and sent its request, or it ends
    with every tile skipped and the state as it was. *)
Lemma fetchLoop_inv tiles : ∀ s s' ot,
  fetchLoop s tiles = (s', ot) →
  same_view s s' ∧ tileImages s' = tileImages s ∧ pending s' = pending s ∧
  match ot with
  | Some t =>
      ∃ skipped tile p,
        tiles = skipped ++ tile :: t_rest t ∧
        t_key t = tileKey tile ∧
        t_req t = {| req_product := id p; req_tile := tile |} ∧
        currentProduct s = Some p ∧
        Forall (λ u, needs_fetch s (tileKey u) = false) skipped ∧
        needs_fetch s (t_key t) = true ∧
        loadingTiles s' = {[ t_key t ]} ∪ loadingTiles s ∧
        requests s' = requests s ++ [t_req t]
  | None =>
      loadingTiles s' = loadingTiles s ∧ requests s' = requests s ∧
      (is_Some (currentProduct s) →
       Forall (λ u, needs_fetch s (tileKey u) = false) tiles)
  end.
Proof.
  induction tiles as [|tile rest IH]; intros s s' ot H; cbn [fetchLoop] in H.
  - injection H as <- <-. repeat split; auto.
  - cbv zeta in H. destruct (needs_fetch s (tileKey tile)) eqn:Hn.
    + change (currentProduct (set_loadingTiles _ s)) with (currentProduct s) in H.
      destruct (currentProduct s) as [p|] eqn:Hp.
      * injection H as <- <-. simpl.
        split; [by repeat split|]. do 2 (split; [done|]).
        exists [], tile, p. by repeat split.
      * apply needs_fetch_true in Hn as Hn'. destruct Hn' as [_ Hk].
        rewrite (mark_unmark s _ Hk) in H.
        destruct (IH _ _ _ H) as (Hv & Hi & Hq & Hot).
        split; [done|]. do 2 (split; [done|]).
        destruct ot as [t|].
        -- destruct Hot as (sk & tl & p & _ & _ & _ & Hp' & _). congruence.
        -- destruct Hot as (? & ? & _). split_and!; auto.
           intros [? ?]; congruence.
    + destruct (IH _ _ _ H) as (Hv & Hi & Hq & Hot).
      split; [done|]. do 2 (split; [done|]).
      destruct ot as [t|].
      * destruct Hot as (sk & tl & p & -> & Hrest).
        exists (tile :: sk), tl, p. split; [done|].
        destruct Hrest as (? & ? & ? & ? & ? & ? & ?). split_and!; auto.
      * destruct Hot as (? & ? & Hall). split_and!; auto.
Qed.

(** [loadVisibleTiles] either finds nothing to fetch, or suspends a new
    activation on the first visible tile that passes the guard. *)
Lemma loadVisibleTiles_inv s :
  same_view s (loadVisibleTiles s) ∧
  tileImages (loadVisibleTiles s) = tileImages s ∧
  ((loadingTiles (loadVisibleTiles s) = loadingTiles s ∧
    requests (loadVisibleTiles s) = requests s ∧
    pending (loadVisibleTiles s) = pending s ∧
    Forall (λ u, needs_fetch s (tileKey u) = false) (getVisibleTiles s))
   ∨
   (∃ t skipped tile p,
      getVisibleTiles s = skipped ++ tile :: t_rest t ∧
      t_key t = tileKey tile ∧
      t_req t = {| req_product := id p; req_tile := tile |} ∧
      currentProduct s = Some p ∧
      Forall (λ u, needs_fetch s (tileKey u) = false) skipped ∧
      needs_fetch s (t_key t) = true ∧
      loadingTiles (loadVisibleTiles s) = {[ t_key t ]} ∪ loadingTiles s ∧
      requests (loadVisibleTiles s) = requests s ++ [t_req t] ∧
      pending (loadVisibleTiles s) = pending s ++ [t])).
Proof.
  unfold loadVisibleTiles.
  destruct (currentProduct s) as [p|] eqn:Hp.
  - destruct (fetchLoop s (getVisibleTiles s)) as [s' ot] eqn:Hl.
    destruct (fetchLoop_inv _ _ _ _ Hl) as (Hv & Hi & Hq & Hot).
    destruct ot as [t|].
    + split; [exact Hv|]. split; [exact Hi|]. right.
      destruct Hot as (sk & tl & p' & ? & ? & ? & ? & ? & ? & ? & ?).
      exists t, sk, tl, p'. simpl. split_and!; auto; congruence.
    + split; [exact Hv|]. split; [exact Hi|]. left.
      destruct Hot as (? & ? & Hall). split_and!; auto.
  - split; [apply same_view_refl|]. split; [done|]. left.
    split_and!; auto. unfold getVisibleTiles. by rewrite Hp.
Qed.

Lemma insert_delete_perm {A} (l : list A) i x y :
  l !! i = Some y → <[ i := x ]> l ≡ₚ x :: delete i l.
Proof.
  intros Hi. apply lookup_lt_Some in Hi as Hlt.
  rewrite insert_take_drop, delete_take_drop by done.
  symmetry. apply Permutation_middle.
Qed.

(** ** Runs and reachable states *)

Lemma run_reachable es : ∀ s s',
  reachable s → run es s = Some s' → reachable s'.
Proof.
  induction es as [|e es IH]; intros s s' Hr H; simpl in H.
  - by injection H as <-.
  - destruct (step e s) as [s1|] eqn:He; [|done].
    eapply IH; [|exact H]. by eapply reach_step.
Qed.

Lemma exec_reachable es : ∀ s, reachable s → reachable (exec es s).
Proof.
  induction es as [|e es IH]; intros s Hr; simpl; [done|].
  destruct (step e s) as [s1|] eqn:He; [|done].
  apply IH. by eapply reach_step.
Qed.

(** ** No key is both in flight and cached *)

Lemma fetchLoop_disjoint tiles s s' ot :
  fetchLoop s tiles = (s', ot) → disjoint s → disjoint s'.
Proof.
  intros Hl Hd k. destruct (fetchLoop_inv _ _ _ _ Hl) as (_ & Hi & _ & Hot).
  rewrite Hi. destruct ot as [t|].
  - destruct Hot as (sk & tl & p & _ & _ & _ & _ & _ & Hn & -> & _).
    apply needs_fetch_true in Hn as [Hn _].
    intros [->%elem_of_singleton|?]%elem_of_union; auto.
  - destruct Hot as (-> & _). auto.
Qed.

Lemma loadVisibleTiles_disjoint s : disjoint s → disjoint (loadVisibleTiles s).
Proof.
  intros Hd k. destruct (loadVisibleTiles_inv s) as (_ & -> & [H|H]).
  - destruct H as (-> & _). auto.
  - destruct H as (t & _ & _ & _ & _ & _ & _ & _ & _ & Hn & -> & _).
    apply needs_fetch_true in Hn as [Hn _].
    intros [->%elem_of_singleton|?]%elem_of_union; auto.
Qed.

Lemma clearTileCache_disjoint s : disjoint (clearTileCache s).
Proof. intros k. simpl. set_solver. Qed.

Lemma setZoom_disjoint target s : disjoint s → disjoint (setZoom target s).
Proof.
  intros Hd. unfold setZoom. destruct (currentProduct s); [|done].
  destruct (negb _); [|done].
  apply loadVisibleTiles_disjoint, clearTileCache_disjoint.
Qed.

Lemma settle_disjoint i o s s' :
  settle i o s = Some s' → disjoint s → disjoint s'.
Proof.
  unfold settle. intros H Hd.
  destruct (pending s !! i) as [t|]; [|done].
  destruct (fetchLoop _ (t_rest t)) as [s3 ot] eqn:Hl.
  injection H as <-.
  apply fetchLoop_disjoint in Hl.
  - intros k. apply Hl.
  - intros k. unfold finishFetch.
    destruct o; simpl; intros [Hk Hne]%elem_of_difference;
      rewrite ?lookup_insert_ne by set_solver; auto.
Qed.

Lemma handleMouseMove_disjoint x y s :
  disjoint s → disjoint (handleMouseMove x y s).
Proof.
  intros Hd. unfold handleMouseMove. destruct (isDragging s); [|done].
  by apply loadVisibleTiles_disjoint.
Qed.

Lemma step_disjoint e s s' : step e s = Some s' → disjoint s → disjoint s'.
Proof.
  destruct e; simpl; intros H Hd; try (injection H as <-).
  - unfold resizeCanvas. simpl. destruct (currentProduct s); [|done].
    by apply loadVisibleTiles_disjoint.
  - unfold productsLoaded. by destruct ps.
  - destruct o; [|done].
    apply loadVisibleTiles_disjoint, clearTileCache_disjoint.
  - by apply setZoom_disjoint.
  - by apply setZoom_disjoint.
  - exact Hd.
  - by apply setZoom_disjoint.
  - exact Hd.
  - by apply handleMouseMove_disjoint.
  - exact Hd.
  - exact Hd.
  - by apply handleMouseMove_disjoint.
  - exact Hd.
  - by eapply settle_disjoint.
Qed.

Lemma reachable_disjoint s : reachable s → disjoint s.
Proof.
  induction 1 as [w h|s e s' _ IH Hs].
  - intros k. simpl. set_solver.
  - by eapply step_disjoint.
Qed.

(** ** The in-flight set and the unsettled fetches *)

Lemma coherent_not_pending s k :
  coherent s → k ∉ loadingTiles s → k ∉ t_key <$> pending s.
Proof. intros [_ ->] Hk. by rewrite elem_of_list_to_set in Hk. Qed.

Lemma loadVisibleTiles_coherent s : coherent s → coherent (loadVisibleTiles s).
Proof.
  intros Hc. destruct (loadVisibleTiles_inv s) as (_ & _ & [H|H]).
  - destruct H as (Hl & _ & Hq & _). unfold coherent. by rewrite Hl, Hq.
  - destruct H as (t & _ & _ & _ & _ & _ & _ & _ & _ & Hn & Hl & _ & Hq).
    apply needs_fetch_true in Hn as [_ Hn].
    pose proof (coherent_not_pending _ _ Hc Hn) as Hnp.
    destruct Hc as [Hnd Hset]. unfold coherent.
    rewrite Hl, Hq, fmap_app. simpl. split.
    + apply NoDup_app. split_and!; [done| |apply NoDup_singleton].
      intros k Hk ->%list_elem_of_singleton. done.
    + rewrite list_to_set_snoc_L, Hset. set_solver.
Qed.

Lemma settle_coherent i o s s' :
  settle i o s = Some s' → coherent s → coherent s'.
Proof.
  unfold settle. intros H [Hnd Hset].
  destruct (pending s !! i) as [t|] eqn:Hi; [|done].
  destruct (fetchLoop _ (t_rest t)) as [s3 ot] eqn:Hl.
  injection H as <-.
  destruct (fetchLoop_inv _ _ _ _ Hl) as (_ & _ & Hq & Hot).
  assert (Hq' : pending s3 = pending s) by (rewrite Hq; by destruct o).
  assert (Hki : (t_key <$> pending s) !! i = Some (t_key t))
    by (by rewrite list_lookup_fmap, Hi).
  pose proof (delete_Permutation _ _ _ Hki) as Hperm.
  rewrite Hperm in Hnd. apply NoDup_cons in Hnd as [Hk Hnd].
  assert (Hdel : loadingTiles s ∖ {[ t_key t ]}
                 = list_to_set (delete i (t_key <$> pending s))).
  { rewrite Hset. rewrite Hperm at 1. rewrite list_to_set_cons.
    apply set_eq. intros k. rewrite elem_of_difference, elem_of_union,
      elem_of_singleton, elem_of_list_to_set.
    split; [intros [[?|?] ?]; done|]. intros ?. split; [by right|].
    by intros ->. }
  unfold coherent. simpl. rewrite Hq'. destruct ot as [t'|].
  - destruct Hot as (sk & tl & p & _ & _ & _ & _ & _ & Hn & Hl' & _).
    apply needs_fetch_true in Hn as [_ Hn].
    assert (Hn' : t_key t' ∉ loadingTiles s ∖ {[ t_key t ]})
      by (by destruct o).
    assert (Hl'' : loadingTiles s3 = {[ t_key t' ]} ∪ (loadingTiles s ∖ {[ t_key t ]}))
      by (rewrite Hl'; by destruct o).
    rewrite Hl'', list_fmap_insert.
    rewrite (insert_delete_perm _ _ _ _ Hki).
    rewrite Hdel in Hn' |- *. rewrite elem_of_list_to_set in Hn'.
    split; [by apply NoDup_cons|]. by rewrite list_to_set_cons.
  - destruct Hot as (Hl' & _).
    assert (Hl'' : loadingTiles s3 = loadingTiles s ∖ {[ t_key t ]})
      by (rewrite Hl'; by destruct o).
    rewrite Hl'', list_fmap_delete. by split.
Qed.

Lemma setZoom_unchanged target s :
  zoom_changes target s = false → setZoom target s = s.
Proof.
  unfold zoom_changes, setZoom. destruct (currentProduct s) as [p|]; [|done].
  simpl. intros H. rewrite H.
  apply negb_false_iff, Z.eqb_eq in H. rewrite H. apply set_zoom_same.
Qed.

Lemma handleMouseMove_coherent x y s :
  coherent s → coherent (handleMouseMove x y s).
Proof.
  intros Hc. unfold handleMouseMove. destruct (isDragging s); [|done].
  by apply loadVisibleTiles_coherent.
Qed.

Lemma step_coherent e s s' :
  invalidates e s = false → step e s = Some s' → coherent s → coherent s'.
Proof.
  destruct e; simpl; intros Hq H Hc; try (injection H as <-).
  - unfold resizeCanvas. simpl. destruct (currentProduct s); [|done].
    by apply loadVisibleTiles_coherent.
  - unfold productsLoaded. by destruct ps.
  - by destruct o.
  - by rewrite setZoom_unchanged.
  - by rewrite setZoom_unchanged.
  - exact Hc.
  - unfold handleWheel. by rewrite setZoom_unchanged.
  - exact Hc.
  - by apply handleMouseMove_coherent.
  - exact Hc.
  - exact Hc.
  - by apply handleMouseMove_coherent.
  - exact Hc.
  - by eapply settle_coherent.
Qed.

Lemma run_coherent es : ∀ s s',
  quiet es s = true → run es s = Some s' → coherent s → coherent s'.
Proof.
  induction es as [|e es IH]; intros s s' Hq H Hc; simpl in *.
  - by injection H as <-.
  - apply andb_true_iff in Hq as [Hq1 Hq2]. apply negb_true_iff in Hq1.
    destruct (step e s) as [s1|] eqn:He; [|done].
    eapply IH; eauto using step_coherent.
Qed.

Lemma coherent_outstanding s : coherent s → NoDup (outstanding s).
Proof.
  intros [Hnd _]. unfold outstanding.
  apply (NoDup_fmap_1 snd). by rewrite <-list_fmap_compose.
Qed.

(** A visibility pass sends no request for a key that is cached or in
    flight when it starts. *)
Lemma loadVisibleTiles_requests_needed s r :
  r ∈ requests_since (length (requests s)) (loadVisibleTiles s) →
  needs_fetch s (tileKey (req_tile r)) = true ∧ req_tile r ∈ getVisibleTiles s.
Proof.
  unfold requests_since.
  destruct (loadVisibleTiles_inv s) as (_ & _ & [H|H]).
  - destruct H as (_ & -> & _). rewrite drop_all. by intros ?%elem_of_nil.
  - destruct H as (t & sk & tl & p & Hv & Hk & Hr & _ & _ & Hn & _ & -> & _).
    rewrite drop_app_length. intros ->%list_elem_of_singleton.
    rewrite Hr in *. simpl. rewrite <-Hk. split; [done|].
    rewrite Hv. set_solver.
Qed.

(** ** A visibility pass run to its end *)

Lemma finishFetch_inv t o s :
  same_view s (finishFetch t o s) ∧
  pending (finishFetch t o s) = pending s ∧
  requests (finishFetch t o s) = requests s ∧
  loadingTiles (finishFetch t o s) = loadingTiles s ∖ {[ t_key t ]} ∧
  tileImages (finishFetch t o s) =
    match o with
    | Loaded => <[ t_key t := {| img_src := t_req t |} ]> (tileImages s)
    | _ => tileImages s
    end.
Proof. unfold finishFetch. by destruct o. Qed.

Lemma settle_requests_prefix i o s s' :
  settle i o s = Some s' → requests s `prefix_of` requests s'.
Proof.
  unfold settle. intros H. destruct (pending s !! i) as [t|]; [|done].
  destruct (fetchLoop _ (t_rest t)) as [s3 ot] eqn:Hl. injection H as <-.
  destruct (fetchLoop_inv _ _ _ _ Hl) as (_ & _ & _ & Hot).
  destruct (finishFetch_inv t o s) as (_ & _ & Hr & _). simpl.
  destruct ot as [t'|].
  - destruct Hot as (sk & tl & p & _ & _ & _ & _ & _ & _ & _ & ->).
    rewrite Hr. by apply prefix_app_r.
  - destruct Hot as (_ & -> & _). by rewrite Hr.
Qed.

Lemma drive_requests_prefix os i : ∀ s,
  requests s `prefix_of` requests (drive os i s).
Proof.
  induction os as [|o os IH]; intros s; simpl; [done|].
  destruct (settle i o s) as [s'|] eqn:Hs; [|done].
  etrans; [by eapply settle_requests_prefix|apply IH].
Qed.

Lemma drive_stops os i s : pending s !! i = None → drive os i s = s.
Proof. intros H. destruct os; [done|]. simpl. unfold settle. by rewrite H. Qed.

Lemma requested_mono base (l1 l2 : list Request) k :
  l1 `prefix_of` l2 → k ∈ keys_of (drop base l1) → k ∈ keys_of (drop base l2).
Proof.
  intros [l ->]. unfold keys_of. rewrite drop_app, fmap_app.
  intros ?. apply elem_of_app. by left.
Qed.

(** An uninterrupted pass ends, and by then every tile of its list has its
    key among the keys [K0] or among the keys requested since the log had
    length [base], provided that holds of the keys cached or in flight. *)
Lemma drive_covers (rest : list Tile) :
  ∀ os s i t0 base p (K0 : gset string),
    pending s !! i = Some t0 → length (pending s) = S i → t_rest t0 = rest →
    currentProduct s = Some p →
    (length rest < length os)%nat →
    (base ≤ length (requests s))%nat →
    (t_key t0 ∈ K0 ∨ t_key t0 ∈ keys_of (requests_since base s)) →
    (∀ k, k ∈ loadingTiles s ∨ is_Some (tileImages s !! k) →
          k ∈ K0 ∨ k ∈ keys_of (requests_since base s)) →
    length (pending (drive os i s)) = i ∧
    ∀ u, u ∈ rest →
      tileKey u ∈ K0 ∨ tileKey u ∈ keys_of (requests_since base (drive os i s)).
Proof.
  induction rest as [rest IH] using (induction_ltof1 _ (@length _)).
  unfold ltof in IH.
  intros os s i t0 base p K0 Hi Hlen Hrest Hp Hos Hbase Hk0 Hinv.
  destruct os as [|o os]; [simpl in Hos; lia|].
  pose proof (drive_requests_prefix os i) as Hmono.
  simpl; unfold settle; rewrite Hi, Hrest.
  destruct (fetchLoop (finishFetch t0 o s) rest) as [s3 ot] eqn:Hl.
  destruct (fetchLoop_inv _ _ _ _ Hl) as (Hv & Hti & Hq & Hot).
  destruct (finishFetch_inv t0 o s) as (Hv2 & Hq2 & Hr2 & Hl2 & Hti2).
  assert (Hinv2 : ∀ k, k ∈ loadingTiles (finishFetch t0 o s)
                        ∨ is_Some (tileImages (finishFetch t0 o s) !! k) →
                        k ∈ K0 ∨ k ∈ keys_of (requests_since base s)).
  { intros k; rewrite Hl2, Hti2; intros [[Hk _]%elem_of_difference|Hk];
      [by apply Hinv; left|].
    destruct o; try (by apply Hinv; right).
    destruct (decide (t_key t0 = k)) as [<-|Hne]; [done|].
    rewrite lookup_insert_ne in Hk by done. by apply Hinv; right. }
  assert (Hskip : ∀ u, needs_fetch (finishFetch t0 o s) (tileKey u) = false →
                        tileKey u ∈ K0 ∨ tileKey u ∈ keys_of (requests_since base s)).
  { intros u Hu; apply needs_fetch_false in Hu; apply Hinv2; tauto. }
  assert (Hp2 : is_Some (currentProduct (finishFetch t0 o s))).
  { destruct Hv2 as (-> & _); rewrite Hp; eauto. }
  destruct ot as [t'|].
  - destruct Hot as (sk & tl & p' & Hsplit & Hk' & Hr' & Hp' & Hsk & Hn' & Hl3 & Hr3).
    set (s' := set_pending (<[i:=t']> (pending s3)) s3).
    assert (Hreq : requests_since base s' = requests_since base s ++ [t_req t']).
    { unfold requests_since, s'. simpl. rewrite Hr3, Hr2.
      by rewrite drop_app_le. }
    assert (Hlt : (i < length (pending s3))%nat) by (rewrite Hq, Hq2; lia).
    destruct (IH (t_rest t') ltac:(rewrite Hsplit, length_app; simpl; lia)
                os s' i t' base p K0) as [Hdone Hcov].
    + unfold s'. simpl. by apply list_lookup_insert_eq.
    + unfold s'. simpl. rewrite length_insert. by rewrite Hq, Hq2.
    + done.
    + unfold s'. simpl. destruct Hv as (-> & _). destruct Hv2 as (-> & _). done.
    + rewrite Hsplit, length_app in Hos. simpl in Hos. lia.
    + unfold s'. simpl. rewrite Hr3, Hr2, length_app. lia.
    + right. rewrite Hreq. unfold keys_of. rewrite fmap_app. simpl.
      rewrite Hr'. simpl. rewrite Hk'. set_solver.
    + intros k. rewrite Hreq. unfold s'. simpl. rewrite Hl3, Hti.
      unfold keys_of. rewrite fmap_app. simpl.
      intros [[->%elem_of_singleton|Hk]%elem_of_union|Hk].
      * right. rewrite Hr'. simpl. rewrite Hk'. set_solver.
      * destruct (Hinv2 k (or_introl Hk)) as [?|?]; [by left|right]. set_solver.
      * destruct (Hinv2 k (or_intror Hk)) as [?|?]; [by left|right]. set_solver.
    + split; [exact Hdone|].
      intros u. rewrite Hsplit.
      intros [Hu|[->|Hu]%elem_of_cons]%elem_of_app.
      * rewrite Forall_forall in Hsk.
        destruct (Hskip u (Hsk u Hu)) as [?|?]; [by left|right].
        unfold requests_since in *.
        eapply requested_mono; [|done].
        etrans; [|apply Hmono]. simpl. rewrite Hr3, Hr2. by apply prefix_app_r.
      * right.
        assert (Hin : tileKey tl ∈ keys_of (requests_since base s')).
        { rewrite Hreq. unfold keys_of. rewrite fmap_app. simpl.
          rewrite Hr'. simpl. set_solver. }
        unfold requests_since in *.
        eapply requested_mono; [apply Hmono|exact Hin].
      * by apply Hcov.
  - destruct Hot as (Hl3 & Hr3 & Hall). specialize (Hall Hp2).
    rewrite drive_stops.
    2:{ simpl. apply lookup_ge_None. rewrite length_delete, Hq, Hq2, Hlen by
          (rewrite Hq, Hq2; eauto). simpl. lia. }
    simpl. split.
    { rewrite length_delete, Hq, Hq2, Hlen by (rewrite Hq, Hq2; eauto).
      simpl. lia. }
    intros u Hu. rewrite Forall_forall in Hall.
    destruct (Hskip u (Hall u Hu)) as [?|?]; [by left|right].
    unfold requests_since in *. simpl. by rewrite Hr3, Hr2.
Qed.

(** A visibility pass started in [s] and run to its end requests every
    visible tile that is neither cached nor in flight in [s], whatever the
    outcomes [os] of its fetches, and then leaves [pending]. *)
Lemma pass_covers s os p :
  currentProduct s = Some p →
  (length (getVisibleTiles s) ≤ length os)%nat →
  length (pending (drive os (length (pending s)) (loadVisibleTiles s)))
    = length (pending s) ∧
  ∀ u, u ∈ getVisibleTiles s → needs_fetch s (tileKey u) = true →
    tileKey u ∈ keys_of (requests_since (length (requests s))
                 (drive os (length (pending s)) (loadVisibleTiles s))).
Proof.
  intros Hp Hos.
  destruct (loadVisibleTiles_inv s) as (Hv & Hti & [H|H]).
  - destruct H as (Hl & Hr & Hq & Hall).
    rewrite drive_stops by (rewrite Hq; by apply lookup_ge_None).
    split; [by rewrite Hq|].
    intros u Hu Hn. rewrite Forall_forall in Hall.
    rewrite (Hall u Hu) in Hn. done.
  - destruct H as (t & sk & tl & p' & Hvis & Hk & Hr & _ & Hsk & Hn & Hl & Hrq & Hq).
    set (K0 := dom (tileImages s) ∪ loadingTiles s).
    assert (HK0 : ∀ k, k ∈ K0 → needs_fetch s k = false).
    { intros k [Hd|Hd]%elem_of_union; apply needs_fetch_false.
      - left. by apply elem_of_dom.
      - by right. }
    assert (Hsince : requests_since (length (requests s)) (loadVisibleTiles s)
                     = [t_req t]).
    { unfold requests_since. by rewrite Hrq, drop_app_length. }
    assert (Hkey : t_key t ∈ keys_of [t_req t]).
    { unfold keys_of. simpl. rewrite Hr. simpl. rewrite Hk. set_solver. }
    destruct (drive_covers (t_rest t) os (loadVisibleTiles s) (length (pending s))
                t (length (requests s)) p K0) as [Hdone Hcov].
    + rewrite Hq. by apply list_lookup_middle.
    + rewrite Hq, length_app. simpl. lia.
    + done.
    + destruct Hv as (-> & _). done.
    + rewrite Hvis, length_app in Hos. simpl in Hos. lia.
    + rewrite Hrq, length_app. lia.
    + right. by rewrite Hsince.
    + intros k. rewrite Hl, Hti, Hsince.
      intros [[->%elem_of_singleton|Hd]%elem_of_union|Hd].
      * by right.
      * left. unfold K0. set_solver.
      * left. unfold K0. apply elem_of_union. left. by apply elem_of_dom.
    + split; [exact Hdone|].
      intros u. rewrite Hvis.
      intros [Hu|[->|Hu]%elem_of_cons]%elem_of_app Hnu.
      * rewrite Forall_forall in Hsk. rewrite (Hsk u Hu) in Hnu. done.
      * unfold requests_since in *.
        eapply requested_mono; [apply drive_requests_prefix|].
        rewrite Hsince. by rewrite <-Hk.
      * destruct (Hcov u Hu) as [HK|?]; [|done].
        apply HK0 in HK. congruence.
Qed.

(** ** Tile grid math *)

Lemma pow2_pos z : (0 < pow2 z)%Q.
Proof. apply Qpower_0_lt. reflexivity. Qed.

Lemma pow2_inject z : 0 ≤ z → (pow2 z == inject_Z (2 ^ z))%Q.
Proof. intros Hz. unfold pow2. symmetry. by apply (Zpower_Qpower 2). Qed.


Lemma tileScale_pos z : (0 < tileScale z)%Q.
Proof.
  unfold tileScale. apply Qmult_lt_0_compat; [reflexivity|apply pow2_pos].
Qed.

Lemma elem_of_loop_range a b i : i ∈ loop_range a b ↔ a ≤ i ≤ Qfloor b.
Proof. unfold loop_range. rewrite elem_of_seqZ. lia. Qed.

Lemma startIndex_nonneg z p : 0 ≤ startIndex z p.
Proof. unfold startIndex. lia. Qed.

Lemma endIndex_bound z p size :
  0 ≤ z → Qfloor (endIndex z p size) ≤ 2 ^ z - 1.
Proof.
  intros Hz. unfold endIndex.
  rewrite <-(Qfloor_Z (2 ^ z - 1)). apply Qfloor_resp_le.
  eapply Qle_trans; [apply Q.le_min_l|].
  rewrite (pow2_inject z Hz). unfold Zminus. rewrite inject_Z_plus.
  apply Qle_refl.
Qed.

Lemma loop_range_off z p size :
  0 ≤ z → off_grid z p size →
  loop_range (startIndex z p) (endIndex z p size) = [].
Proof.
  intros Hz Hoff. unfold loop_range. apply seqZ_nil.
  pose proof (tileScale_pos z) as Hs.
  pose proof (endIndex_bound z p size Hz) as Hend.
  pose proof (startIndex_nonneg z p) as Hstart.
  destruct Hoff as [Hleft|Hright].
  - assert (2 ^ z ≤ startIndex z p); [|lia].
    unfold startIndex. etrans; [|apply Z.le_max_r].
    rewrite <-(Qfloor_Z (2 ^ z)). apply Qfloor_resp_le.
    apply Qle_shift_div_l; [done|].
    rewrite <-(pow2_inject z Hz). lra.
  - assert (Qfloor (endIndex z p size) ≤ -1); [|lia].
    rewrite <-(Qfloor_Z (-1)). apply Qfloor_resp_le.
    unfold endIndex. eapply Qle_trans; [apply Q.le_min_r|].
    rewrite <-Zle_Qle. rewrite <-(Qceiling_Z (-1)). apply Qceiling_resp_le.
    apply Qle_shift_div_r; [done|]. change (inject_Z (-1)) with (-1)%Q. lra.
Qed.

Lemma elem_of_visibleTilesAt z p w h u :
  u ∈ visibleTilesAt z p w h ↔
  tzoom u = z ∧
  row u ∈ loop_range (startIndex z (py p)) (endIndex z (py p) h) ∧
  col u ∈ loop_range (startIndex z (px p)) (endIndex z (px p) w).
Proof.
  unfold visibleTilesAt. rewrite list_elem_of_bind. split.
  - intros (r & (c & ->%list_elem_of_singleton & Hc)%list_elem_of_bind & Hr).
    done.
  - intros (Hz & Hr & Hc). exists (row u). split; [|done].
    apply list_elem_of_bind. exists (col u). split; [|done].
    apply list_elem_of_singleton. destruct u; simpl in *. by subst.
Qed.

Lemma bind_nil_r {A B} (l : list A) : l ≫= (λ _, @nil B) = [].
Proof. induction l; simpl; auto. Qed.


(** * The claims *)

(** The claim C1, as stated, fails: after zooming in and back out while the
    first fetch is unsettled, two fetches for product "moon", key "1-0-0"
    are outstanding at once. *)
Lemma duplicate_fetch_after_zoom_round_trip :
  reachable (exec zoom_round_trip (initial 1024 768)) ∧
  outstanding (exec zoom_round_trip (initial 1024 768))
    = [("moon", "1-0-0"); ("moon", "2-0-0"); ("moon", "1-0-0")] ∧
  ¬ NoDup (outstanding (exec zoom_round_trip (initial 1024 768))).
Proof.
  split; [apply exec_reachable, reach_initial|].
  assert (H : outstanding (exec zoom_round_trip (initial 1024 768))
              = [("moon", "1-0-0"); ("moon", "2-0-0"); ("moon", "1-0-0")])
    by (vm_compute; reflexivity).
  split; [exact H|]. rewrite H.
  intros [Hin _]%NoDup_cons. apply Hin. repeat constructor.
Qed.

(** C1 (amended): as long as no event invalidates the cache, at most one
    fetch is outstanding per (product, key).  From any state whose in-flight
    set is exactly the keys of its unsettled fetches (such as the initial
    state), every run of events none of which clears the cache (pans,
    resizes, settling fetches, ...) ends in such a state again, with no
    (product, key) outstanding twice; and a pan event there sends requests
    only for keys that are neither cached nor in flight. *)
Theorem one_fetch_per_key_between_invalidations s es s' :
  coherent s → quiet es s = true → run es s = Some s' →
  coherent s' ∧ NoDup (outstanding s') ∧
  ∀ x y r,
    r ∈ requests_since (length (requests s')) (handleMouseMove x y s') →
    needs_fetch s' (tileKey (req_tile r)) = true.
Proof.
  intros Hc Hq Hrun.
  pose proof (run_coherent es s s' Hq Hrun Hc) as Hc'.
  split; [exact Hc'|]. split; [by apply coherent_outstanding|].
  intros x y r. unfold handleMouseMove. destruct (isDragging s').
  - intros Hr.
    change (length (requests s')) with
      (length (requests (set_pan {| px := (x - px (dragStart s'))%Q;
                                    py := (y - py (dragStart s'))%Q |} s'))) in Hr.
    by apply loadVisibleTiles_requests_needed in Hr as [Hr _].
  - unfold requests_since. rewrite drop_all. by intros ?%elem_of_nil.
Qed.

(** Repeated pan events over an unsettled fetch, from the initial state. *)
Lemma one_fetch_per_key_between_invalidations_witness :
  coherent (initial 1024 768) ∧
  quiet pan_while_loading (initial 1024 768) = true ∧
  run pan_while_loading (initial 1024 768)
    = Some (exec pan_while_loading (initial 1024 768)) ∧
  NoDup (outstanding (exec pan_while_loading (initial 1024 768))).
Proof.
  assert (Hc : coherent (initial 1024 768)).
  { split; [apply NoDup_nil_2|reflexivity]. }
  assert (Hq : quiet pan_while_loading (initial 1024 768) = true)
    by (vm_compute; reflexivity).
  assert (Hr : run pan_while_loading (initial 1024 768)
               = Some (exec pan_while_loading (initial 1024 768)))
    by (vm_compute; reflexivity).
  split; [exact Hc|]. split; [exact Hq|]. split; [exact Hr|].
  exact (proj1 (proj2 (one_fetch_per_key_between_invalidations _ _ _ Hc Hq Hr))).
Defined.

(** The claim C2, as stated, fails: a fetch issued at zoom 1 that succeeds
    after the zoom went to 2 is put in the cache; the entry's zoom (1) is
    not the active zoom (2). *)
Lemma stale_fetch_is_cached :
  reachable (exec stale_arrival (initial 1024 768)) ∧
  zoom (exec stale_arrival (initial 1024 768)) = 2 ∧
  tileImages (exec stale_arrival (initial 1024 768)) !! "1-0-0"
    = Some {| img_src := {| req_product := "moon";
                            req_tile := {| row := 0; col := 0; tzoom := 1 |} |} |}.
Proof.
  split; [apply exec_reachable, reach_initial|].
  split; vm_compute; reflexivity.
Qed.

(** C2 (amended): there is no stale-fetch guard.  When a fetch succeeds its
    image is stored under its key whatever the active zoom [z] is at that
    moment, and the zoom is left as it is. *)
Theorem fetched_tile_always_cached s i t z :
  pending s !! i = Some t →
  ∃ s', settle i Loaded (set_zoom z s) = Some s' ∧
        tileImages s' = <[ t_key t := {| img_src := t_req t |} ]> (tileImages s) ∧
        zoom s' = z.
Proof.
  intros Hi. unfold settle. simpl. rewrite Hi.
  destruct (fetchLoop _ (t_rest t)) as [s3 ot] eqn:Hl.
  destruct (fetchLoop_inv _ _ _ _ Hl) as (Hv & Hti & _).
  eexists. split; [reflexivity|]. simpl. split.
  - by rewrite Hti.
  - by destruct Hv as (_ & -> & _).
Qed.

(** The first fetch of [first_pass], settled after the zoom went to 2. *)
Lemma fetched_tile_always_cached_witness :
  pending (exec first_pass (initial 1024 768)) !! 0%nat
    = Some {| t_key := "1-0-0";
              t_req := {| req_product := "moon";
                          req_tile := {| row := 0; col := 0; tzoom := 1 |} |};
              t_rest := [ {| row := 0; col := 1; tzoom := 1 |};
                          {| row := 1; col := 0; tzoom := 1 |};
                          {| row := 1; col := 1; tzoom := 1 |} ] |} ∧
  ∃ s', settle 0 Loaded (set_zoom 2 (exec first_pass (initial 1024 768))) = Some s' ∧
        tileImages s' !! "1-0-0"
          = Some {| img_src := {| req_product := "moon";
                      req_tile := {| row := 0; col := 0; tzoom := 1 |} |} |} ∧
        zoom s' = 2.
Proof.
  assert (Hi : pending (exec first_pass (initial 1024 768)) !! 0%nat
    = Some {| t_key := "1-0-0";
              t_req := {| req_product := "moon";
                          req_tile := {| row := 0; col := 0; tzoom := 1 |} |};
              t_rest := [ {| row := 0; col := 1; tzoom := 1 |};
                          {| row := 1; col := 0; tzoom := 1 |};
                          {| row := 1; col := 1; tzoom := 1 |} ] |})
    by (vm_compute; reflexivity).
  split; [exact Hi|].
  destruct (fetched_tile_always_cached _ _ _ 2 Hi) as (s' & Hs & Hti & Hz).
  exists s'. split; [exact Hs|]. split; [|exact Hz].
  rewrite Hti. apply lookup_insert_eq.
Defined.

(** C7: in every reachable state no key is both in the in-flight set and in
    the cache. *)
Theorem inflight_and_cached_disjoint s k :
  reachable s → ¬ (k ∈ loadingTiles s ∧ is_Some (tileImages s !! k)).
Proof.
  intros Hr [Hl [img Hc]]. apply reachable_disjoint in Hr.
  rewrite (Hr k Hl) in Hc. discriminate.
Qed.

(** A reachable state with a cached tile and another one in flight. *)
Lemma inflight_and_cached_disjoint_witness :
  reachable (exec pan_while_loading (initial 1024 768)) ∧
  "1-0-1" ∈ loadingTiles (exec pan_while_loading (initial 1024 768)) ∧
  ¬ ("1-0-1" ∈ loadingTiles (exec pan_while_loading (initial 1024 768)) ∧
     is_Some (tileImages (exec pan_while_loading (initial 1024 768)) !! "1-0-1")).
Proof.
  assert (Hr : reachable (exec pan_while_loading (initial 1024 768)))
    by apply exec_reachable, reach_initial.
  split; [exact Hr|]. split.
  - apply (bool_decide_unpack _). vm_compute. exact I.
  - exact (inflight_and_cached_disjoint _ "1-0-1" Hr).
Defined.

Lemma visibleTilesAt_in_grid z p w h :
  0 ≤ z →
  (∀ u, u ∈ visibleTilesAt z p w h →
        tzoom u = z ∧ 0 ≤ row u < 2 ^ z ∧ 0 ≤ col u < 2 ^ z) ∧
  (off_grid z (px p) w ∨ off_grid z (py p) h → visibleTilesAt z p w h = []).
Proof.
  intros Hz. split.
  - intros u (Hu & Hr & Hc)%elem_of_visibleTilesAt.
    apply elem_of_loop_range in Hr, Hc.
    pose proof (endIndex_bound z (py p) h Hz).
    pose proof (endIndex_bound z (px p) w Hz).
    pose proof (startIndex_nonneg z (py p)).
    pose proof (startIndex_nonneg z (px p)).
    split; [done|]. lia.
  - unfold visibleTilesAt. intros [Hx|Hy].
    + rewrite (loop_range_off z (px p) w Hz Hx). simpl. apply bind_nil_r.
    + by rewrite (loop_range_off z (py p) h Hz Hy).
Qed.

(** The claim C3, as stated, fails: with an empty viewport (a 0 x 0 canvas)
    the view after the product list has arrived has four visible tiles; and
    a grid that starts 10 pixels beyond the right edge of a 1024 x 768 canvas
    still has visible tiles. *)
Lemma empty_viewport_has_tiles :
  reachable (exec [EvProductsLoaded [moon]] (initial 0 0)) ∧
  canvas_width (exec [EvProductsLoaded [moon]] (initial 0 0)) = 0 ∧
  canvas_height (exec [EvProductsLoaded [moon]] (initial 0 0)) = 0 ∧
  getVisibleTiles (exec [EvProductsLoaded [moon]] (initial 0 0))
    = [ {| row := 0; col := 0; tzoom := 1 |}; {| row := 0; col := 1; tzoom := 1 |};
        {| row := 1; col := 0; tzoom := 1 |}; {| row := 1; col := 1; tzoom := 1 |} ] ∧
  visibleTilesAt 0 {| px := 0; py := 0 |} 0 0
    = [ {| row := 0; col := 0; tzoom := 0 |} ] ∧
  visibleTilesAt 1 {| px := 1034; py := 0 |} 1024 768
    = [ {| row := 0; col := 0; tzoom := 1 |};
        {| row := 1; col := 0; tzoom := 1 |} ].
Proof.
  split; [apply exec_reachable, reach_initial|].
  split_and!; vm_compute; reflexivity.
Qed.

(** C3 (amended): for every zoom [≥ 0], pan and viewport size, every tile
    returned by [getVisibleTiles] has the current zoom and
    [0 ≤ row, col < 2^zoom]; and the result is empty when, along some axis,
    the grid ends at or before the canvas origin or starts at least one tile
    side beyond the far edge. *)
Theorem visibleTiles_in_grid s :
  0 ≤ zoom s →
  (∀ u, u ∈ getVisibleTiles s →
        tzoom u = zoom s ∧
        0 ≤ row u < 2 ^ zoom s ∧ 0 ≤ col u < 2 ^ zoom s) ∧
  (off_grid (zoom s) (px (pan s)) (canvas_width s) ∨
   off_grid (zoom s) (py (pan s)) (canvas_height s) →
   getVisibleTiles s = []).
Proof.
  intros Hz. unfold getVisibleTiles.
  destruct (visibleTilesAt_in_grid (zoom s) (pan s)
              (canvas_width s) (canvas_height s) Hz) as [Hin Hoff].
  destruct (currentProduct s); [done|].
  split; [|done]. by intros u ?%elem_of_nil.
Qed.

(** Zoom 1, pan (0, 0), a 1024 x 768 canvas: the 2 x 2 grid; with the pan at
    (-1024, 0) the grid ends at the canvas origin and nothing is visible. *)
Lemma visibleTiles_in_grid_witness :
  0 ≤ zoom zoom_scenario ∧
  getVisibleTiles zoom_scenario
    = [ {| row := 0; col := 0; tzoom := 1 |}; {| row := 0; col := 1; tzoom := 1 |};
        {| row := 1; col := 0; tzoom := 1 |}; {| row := 1; col := 1; tzoom := 1 |} ] ∧
  (∀ u, u ∈ getVisibleTiles zoom_scenario →
        tzoom u = 1 ∧ 0 ≤ row u < 2 ^ 1 ∧ 0 ≤ col u < 2 ^ 1) ∧
  getVisibleTiles (set_pan {| px := -1024; py := 0 |} zoom_scenario) = [].
Proof.
  assert (Hz : 0 ≤ zoom zoom_scenario) by (simpl; lia).
  split; [exact Hz|]. split; [reflexivity|]. split.
  - exact (proj1 (visibleTiles_in_grid zoom_scenario Hz)).
  - apply (visibleTiles_in_grid (set_pan {| px := -1024; py := 0 |} zoom_scenario) Hz).
    left. left. vm_compute. discriminate.
Defined.

Lemma setZoom_changed s target p :
  currentProduct s = Some p → clampZoom p target ≠ zoom s →
  setZoom target s =
  loadVisibleTiles
    (clearTileCache
       (set_pan (zoomedPan (zoom s) (clampZoom p target) (pan s)
                   (canvas_width s) (canvas_height s))
          (set_zoom (clampZoom p target) s))).
Proof.
  intros Hp Hz. unfold setZoom. rewrite Hp. simpl.
  apply Z.eqb_neq in Hz. by rewrite Hz.
Qed.









(** C8: when the fetch of a suspended activation fails, by a transport
    error, a response that is not ok, or a decode error alike, the handler
    ends normally in the same state for each kind; the cache is as before
    (no entry is created); the key leaves the in-flight set, and it is in
    flight again at the end of the handler only when the continuing loop has
    just requested it again; and when the key is neither cached nor in
    flight then, the next visibility pass in which it is visible requests
    it. *)
Theorem failed_fetch_leaves_tile_absent s i t o :
  pending s !! i = Some t → o ≠ Loaded →
  ∃ s',
    settle i o s = Some s' ∧
    settle i NotFound s = Some s' ∧
    settle i TransportError s = Some s' ∧
    settle i DecodeError s = Some s' ∧
    tileImages s' = tileImages s ∧
    (t_key t ∉ loadingTiles (finishFetch t o s)) ∧
    (t_key t ∈ loadingTiles s' →
       t_key t ∈ keys_of (requests_since (length (requests s)) s')) ∧
    (tileImages s !! t_key t = None → t_key t ∉ loadingTiles s' →
       needs_fetch s' (t_key t) = true ∧
       ∀ os u,
         u ∈ getVisibleTiles s' → tileKey u = t_key t →
         (length (getVisibleTiles s') ≤ length os)%nat →
         t_key t ∈ keys_of (requests_since (length (requests s'))
                      (drive os (length (pending s')) (loadVisibleTiles s')))).
Proof.
  intros Hi Ho.
  assert (Hsame : ∀ o', o' ≠ Loaded → finishFetch t o' s = finishFetch t NotFound s)
    by (by intros []).
  assert (Hset : ∀ o', o' ≠ Loaded → settle i o' s = settle i NotFound s).
  { intros o' Ho'. unfold settle. rewrite Hi. by rewrite (Hsame o' Ho'). }
  rewrite (Hset o Ho), (Hset TransportError), (Hset DecodeError) by done.
  rewrite (Hsame o Ho).
  unfold settle. rewrite Hi.
  destruct (fetchLoop (finishFetch t NotFound s) (t_rest t)) as [s3 ot] eqn:Hl.
  destruct (fetchLoop_inv _ _ _ _ Hl) as (Hv & Hti & Hq & Hot).
  destruct (finishFetch_inv t NotFound s) as (Hv2 & Hq2 & Hr2 & Hl2 & Hti2).
  set (s' := set_pending match ot with
                         | Some t' => <[i:=t']> (pending s3)
                         | None => delete i (pending s3)
                         end s3).
  exists s'. do 4 (split; [reflexivity|]).
  assert (Hcache : tileImages s' = tileImages s) by (simpl; by rewrite Hti, Hti2).
  assert (Hfresh : t_key t ∈ loadingTiles s' →
            t_key t ∈ keys_of (requests_since (length (requests s)) s')).
  { unfold requests_since. simpl. destruct ot as [t'|].
    - destruct Hot as (sk & tl & p & _ & Hk & Hr & _ & _ & _ & -> & Hrq).
      rewrite Hl2. intros [->%elem_of_singleton|[_ Hne]%elem_of_difference]%elem_of_union.
      + rewrite Hrq, Hr2, drop_app_length.
        unfold keys_of. simpl. rewrite Hr. simpl. rewrite Hk. set_solver.
      + set_solver.
    - destruct Hot as (-> & _). rewrite Hl2. set_solver. }
  split; [exact Hcache|]. split; [rewrite Hl2; set_solver|].
  split; [exact Hfresh|].
  intros Hnone Hnot.
  assert (Hneed : needs_fetch s' (t_key t) = true).
  { apply needs_fetch_true. by rewrite Hcache. }
  split; [exact Hneed|].
  intros os u Hu Hku Hos.
  assert (Hp : is_Some (currentProduct s')).
  { unfold getVisibleTiles in Hu.
    destruct (currentProduct s'); [eauto|by apply elem_of_nil in Hu]. }
  destruct Hp as [p Hp].
  destruct (pass_covers s' os p Hp Hos) as [_ Hcov].
  rewrite <-Hku. apply Hcov; [done|]. by rewrite Hku.
Qed.

(** The first fetch of [first_pass] fails. *)
Lemma failed_fetch_leaves_tile_absent_witness :
  NotFound ≠ Loaded ∧
  ∃ t s',
    pending (exec first_pass (initial 1024 768)) !! 0%nat = Some t ∧
    t_key t = "1-0-0" ∧
    settle 0 NotFound (exec first_pass (initial 1024 768)) = Some s' ∧
    settle 0 TransportError (exec first_pass (initial 1024 768)) = Some s' ∧
    tileImages s' = tileImages (exec first_pass (initial 1024 768)) ∧
    tileImages s' !! "1-0-0" = None.
Proof.
  assert (Ho : NotFound ≠ Loaded) by discriminate.
  split; [exact Ho|].
  destruct (pending (exec first_pass (initial 1024 768)) !! 0%nat) as [t|] eqn:Hi;
    [|vm_compute in Hi; discriminate].
  destruct (failed_fetch_leaves_tile_absent _ 0 t NotFound Hi Ho)
    as (s' & Hs & _ & Hs' & _ & Hti & _).
  exists t, s'. split; [reflexivity|].
  split; [vm_compute in Hi; by injection Hi as <-|].
  split; [exact Hs|]. split; [exact Hs'|]. split; [exact Hti|].
  rewrite Hti. vm_compute. reflexivity.
Defined.

(** The claim C9, as stated, fails: with no product selected, pressing the
    button at (10, 10) and moving to (50, 60) changes the pan from (0, 0)
    to (40, 50). *)
Lemma drag_without_product_moves_pan :
  currentProduct (initial 1024 768) = None ∧
  currentProduct (exec early_drag (initial 1024 768)) = None ∧
  (px (pan (initial 1024 768)) == 0)%Q ∧
  (px (pan (exec early_drag (initial 1024 768))) == 40)%Q ∧
  (py (pan (exec early_drag (initial 1024 768))) == 50)%Q ∧
  ¬ (px (pan (exec early_drag (initial 1024 768)))
     == px (pan (initial 1024 768)))%Q.
Proof.
  split_and!; try (vm_compute; reflexivity).
  vm_compute. discriminate.
Qed.

(** C9 (amended): with no product selected every zoom request is a no-op.
    A drag is not: pressing changes no zoom, pan, cache entry, in-flight key
    or fetch; moving, while the button is down, sets the pan to the pointer
    position minus the drag anchor and changes no zoom, cache entry,
    in-flight key or fetch. *)
Theorem without_product_zoom_is_noop_and_drag_only_pans s :
  currentProduct s = None →
  (∀ target, setZoom target s = s) ∧
  step EvZoomIn s = Some s ∧ step EvZoomOut s = Some s ∧
  (∀ d, step (EvWheel d) s = Some s) ∧
  (∀ x y,
     zoom (handleMouseDown x y s) = zoom s ∧
     pan (handleMouseDown x y s) = pan s ∧
     tileImages (handleMouseDown x y s) = tileImages s ∧
     loadingTiles (handleMouseDown x y s) = loadingTiles s ∧
     pending (handleMouseDown x y s) = pending s ∧
     requests (handleMouseDown x y s) = requests s) ∧
  (∀ x y,
     zoom (handleMouseMove x y s) = zoom s ∧
     tileImages (handleMouseMove x y s) = tileImages s ∧
     loadingTiles (handleMouseMove x y s) = loadingTiles s ∧
     pending (handleMouseMove x y s) = pending s ∧
     requests (handleMouseMove x y s) = requests s ∧
     pan (handleMouseMove x y s)
       = if isDragging s
         then {| px := (x - px (dragStart s))%Q; py := (y - py (dragStart s))%Q |}
         else pan s).
Proof.
  intros Hp.
  assert (Hz : ∀ target, setZoom target s = s).
  { intros target. unfold setZoom. by rewrite Hp. }
  split; [exact Hz|]. simpl. unfold handleWheel. rewrite !Hz.
  split; [done|]. split; [done|]. split; [by intros d; rewrite Hz|].
  split; [done|].
  intros x y. unfold handleMouseMove, loadVisibleTiles. simpl. rewrite Hp.
  by destruct (isDragging s).
Qed.

(** The initial state has no product. *)
Lemma without_product_zoom_is_noop_and_drag_only_pans_witness :
  currentProduct (initial 1024 768) = None ∧
  setZoom 2 (initial 1024 768) = initial 1024 768 ∧
  tileImages (handleMouseMove 50 60 (initial 1024 768)) = ∅.
Proof.
  assert (Hp : currentProduct (initial 1024 768) = None) by reflexivity.
  destruct (without_product_zoom_is_noop_and_drag_only_pans _ Hp)
    as (Hz & _ & _ & _ & _ & Hmove).
  split; [exact Hp|]. split; [exact (Hz 2)|].
  destruct (Hmove 50%Q 60%Q) as (_ & -> & _). reflexivity.
Defined.



(** * Further properties of the code *)

(** ** Cache keys *)

Lemma pretty_N_char_no_dash x : pretty_N_char x ≠ "-"%char.
Proof. unfold pretty_N_char. by repeat case_match. Qed.

Lemma pretty_N_go_no_dash x : ∀ s, no_dash s → no_dash (pretty_N_go x s).
Proof.
  induction (N.lt_wf_0 x) as [x _ IH]; intros s Hs.
  assert (x = 0 ∨ 0 < x)%N as [->|Hx] by lia.
  - by rewrite pretty_N_go_0.
  - rewrite pretty_N_go_step by done. apply IH.
    + by apply N.div_lt.
    + simpl. split; [apply pretty_N_char_no_dash|done].
Qed.

Lemma pretty_Z_no_dash z : 0 ≤ z → no_dash (pretty z).
Proof.
  intros Hz. destruct z as [|q|q]; [simpl; split; [discriminate|done]| |lia].
  change (pretty (Z.pos q)) with (pretty (N.pos q)).
  unfold pretty, pretty_N. case_decide; [done|].
  by apply pretty_N_go_no_dash.
Qed.

(** A string up to its first dash determines both parts. *)
Lemma append_dash_inj a : ∀ a' b b',
  no_dash a → no_dash a' →
  a +:+ "-" +:+ b = a' +:+ "-" +:+ b' → a = a' ∧ b = b'.
Proof.
  induction a as [|c a IH]; intros [|c' a'] b b' Ha Ha' H; simpl in Ha, Ha'.
  - change (String "-" b = String "-" b') in H. by injection H as ->.
  - change (String "-" b = String c' (a' +:+ "-" +:+ b')) in H.
    injection H as <- _. by destruct Ha'.
  - change (String c (a +:+ "-" +:+ b) = String "-" b') in H.
    injection H as -> _. by destruct Ha.
  - change (String c (a +:+ "-" +:+ b) = String c' (a' +:+ "-" +:+ b')) in H.
    injection H as -> H. destruct Ha as [_ Ha], Ha' as [_ Ha'].
    destruct (IH _ _ _ Ha Ha' H) as [-> ->]. done.
Qed.

Lemma tileKey_inj_aux u v :
  0 ≤ tzoom u → 0 ≤ row u → 0 ≤ tzoom v → 0 ≤ row v →
  tileKey u = tileKey v → u = v.
Proof.
  intros Hzu Hru Hzv Hrv H. unfold tileKey in H.
  apply append_dash_inj in H as [Hz H]; [|by apply pretty_Z_no_dash..].
  apply append_dash_inj in H as [Hr Hc]; [|by apply pretty_Z_no_dash..].
  apply (inj pretty) in Hz, Hr, Hc.
  destruct u, v; simpl in *; by subst.
Qed.

(** X7: two tiles with non-negative zoom and row that have the same cache
    key are the same tile. *)
Theorem tileKey_inj u v :
  0 ≤ tzoom u → 0 ≤ row u → 0 ≤ tzoom v → 0 ≤ row v →
  tileKey u = tileKey v → u = v.
Proof.
  intros Hzu Hru Hzv Hrv H. unfold tileKey in H.
  apply append_dash_inj in H as [Hz H]; [|by apply pretty_Z_no_dash..].
  apply append_dash_inj in H as [Hr Hc]; [|by apply pretty_Z_no_dash..].
  apply (inj pretty) in Hz, Hr, Hc.
  destruct u, v; simpl in *; by subst.
Qed.

Lemma tileKey_inj_witness :
  tileKey {| row := 1; col := 12; tzoom := 4 |} ≠
  tileKey {| row := 11; col := 2; tzoom := 4 |}.
Proof.
  intros H.
  assert (Hne : {| row := 1; col := 12; tzoom := 4 |}
                ≠ {| row := 11; col := 2; tzoom := 4 |}) by discriminate.
  apply Hne.
  apply (tileKey_inj {| row := 1; col := 12; tzoom := 4 |}
                     {| row := 11; col := 2; tzoom := 4 |});
    simpl; try lia. exact H.
Defined.

(** ** The visible tiles and the canvas *)

(** Along one axis: an index of the grid whose tile meets the canvas is in
    the range of the loop. *)
Lemma range_complete z p size c :
  0 ≤ z → 0 ≤ c < 2 ^ z →
  (inject_Z c * tileScale z + p < inject_Z size)%Q →
  (0 < inject_Z c * tileScale z + p + tileScale z)%Q →
  c ∈ loop_range (startIndex z p) (endIndex z p size).
Proof.
  intros Hz Hc Hlo Hhi. apply elem_of_loop_range.
  pose proof (tileScale_pos z) as HS.
  assert (E1 : (- p / tileScale z * tileScale z == - p)%Q) by (field; lra).
  assert (E2 : ((inject_Z size - p) / tileScale z * tileScale z
                == inject_Z size - p)%Q) by (field; lra).
  pose proof (Qfloor_le (- p / tileScale z)) as Hf.
  pose proof (Qle_ceiling ((inject_Z size - p) / tileScale z)) as Hce.
  split.
  - unfold startIndex. apply Z.max_lub; [lia|].
    assert (Qfloor (- p / tileScale z) < c + 1); [|lia].
    rewrite Zlt_Qlt, inject_Z_plus.
    eapply Qle_lt_trans; [exact Hf|].
    change (inject_Z 1) with 1%Q. nra.
  - rewrite <-(Qfloor_Z c). apply Qfloor_resp_le. unfold endIndex.
    apply Q.min_glb.
    + rewrite (pow2_inject z Hz).
      assert (Hc' : c ≤ 2 ^ z - 1) by lia. rewrite Zle_Qle in Hc'.
      unfold Z.sub in Hc'. rewrite inject_Z_plus in Hc'. exact Hc'.
    + eapply Qle_trans; [|exact Hce]. apply Qlt_le_weak. nra.
Qed.

(** Along one axis: the tile of an index of the loop lies less than one
    tile side away from the canvas. *)
Lemma range_near z p size c :
  c ∈ loop_range (startIndex z p) (endIndex z p size) →
  (0 < inject_Z c * tileScale z + p + tileScale z)%Q ∧
  (inject_Z c * tileScale z + p < inject_Z size + tileScale z)%Q.
Proof.
  intros [Hlo Hhi]%elem_of_loop_range.
  pose proof (tileScale_pos z) as HS.
  assert (E1 : (- p / tileScale z * tileScale z == - p)%Q) by (field; lra).
  assert (E2 : ((inject_Z size - p) / tileScale z * tileScale z
                == inject_Z size - p)%Q) by (field; lra).
  pose proof (Qlt_floor (- p / tileScale z)) as Hf.
  pose proof (Qceiling_lt ((inject_Z size - p) / tileScale z)) as Hce.
  split.
  - assert (Hc : Qfloor (- p / tileScale z) + 1 ≤ c + 1)
      by (unfold startIndex in Hlo; lia).
    rewrite Zle_Qle, (inject_Z_plus c) in Hc.
    change (inject_Z 1) with 1%Q in Hc. nra.
  - assert (Hc : (inject_Z c <= inject_Z (Qceiling ((inject_Z size - p) / tileScale z)))%Q).
    { eapply Qle_trans; [|apply Q.le_min_r].
      eapply Qle_trans; [|apply Qfloor_le]. by rewrite <-Zle_Qle. }
    unfold Z.sub in Hce. rewrite inject_Z_plus in Hce.
    change (inject_Z (Z.opp 1)) with (-1)%Q in Hce.
    revert E2 Hc Hce. generalize ((inject_Z size - p) / tileScale z)%Q.
    intros q2 E2 Hc Hce.
    assert (Hlt : (inject_Z c < q2 + 1)%Q) by lra.
    clear Hc Hce E1 Hf. nra.
Qed.

(** X4: with a product selected and a zoom [≥ 0], every tile of the grid
    whose square, as [render] places it, meets the canvas is among the
    visible tiles. *)
Theorem visible_tiles_complete s u :
  is_Some (currentProduct s) → 0 ≤ zoom s →
  valid_tile u → tzoom u = zoom s →
  (d_x (drawTile s u) < inject_Z (canvas_width s))%Q →
  (0 < d_x (drawTile s u) + d_size (drawTile s u))%Q →
  (d_y (drawTile s u) < inject_Z (canvas_height s))%Q →
  (0 < d_y (drawTile s u) + d_size (drawTile s u))%Q →
  u ∈ getVisibleTiles s.
Proof.
  intros [p Hp] Hz (_ & Hr & Hc) Hu Hx1 Hx2 Hy1 Hy2.
  unfold getVisibleTiles. rewrite Hp. simpl in Hx1, Hx2, Hy1, Hy2.
  rewrite Hu in Hr, Hc.
  apply elem_of_visibleTilesAt. split; [done|].
  split; by apply range_complete.
Qed.

Lemma visible_tiles_complete_witness :
  {| row := 1; col := 0; tzoom := 1 |} ∈ getVisibleTiles zoom_scenario.
Proof.
  apply visible_tiles_complete; try (vm_compute; reflexivity).
  - by exists moon.
  - vm_compute. discriminate.
  - unfold valid_tile. simpl. lia.
Defined.

(** X5: every visible tile has the current zoom, and its square, as [render]
    places it, lies less than one tile side away from the canvas on each
    axis. *)
Theorem visible_tiles_near_canvas s u :
  u ∈ getVisibleTiles s →
  tzoom u = zoom s ∧
  (0 < d_x (drawTile s u) + d_size (drawTile s u))%Q ∧
  (d_x (drawTile s u) < inject_Z (canvas_width s) + d_size (drawTile s u))%Q ∧
  (0 < d_y (drawTile s u) + d_size (drawTile s u))%Q ∧
  (d_y (drawTile s u) < inject_Z (canvas_height s) + d_size (drawTile s u))%Q.
Proof.
  unfold getVisibleTiles. destruct (currentProduct s); [|by intros ?%elem_of_nil].
  intros (Hu & Hr & Hc)%elem_of_visibleTilesAt. simpl.
  apply range_near in Hr, Hc. tauto.
Qed.

Lemma visible_tiles_near_canvas_witness :
  {| row := 1; col := 1; tzoom := 1 |} ∈ getVisibleTiles zoom_scenario ∧
  (d_x (drawTile zoom_scenario {| row := 1; col := 1; tzoom := 1 |})
   < 1024 + 512)%Q.
Proof.
  assert (H : {| row := 1; col := 1; tzoom := 1 |} ∈ getVisibleTiles zoom_scenario).
  { vm_compute. repeat constructor. }
  split; [exact H|].
  destruct (visible_tiles_near_canvas _ _ H) as (_ & _ & Hx & _).
  eapply Qlt_le_trans; [exact Hx|]. vm_compute. discriminate.
Defined.

Lemma loop_range_NoDup a b : NoDup (loop_range a b).
Proof. apply NoDup_seqZ. Qed.

Lemma visibleTilesAt_NoDup z p w h : NoDup (visibleTilesAt z p w h).
Proof.
  unfold visibleTilesAt. apply NoDup_bind; [| |apply loop_range_NoDup].
  - intros r1 r2 u _ _
      (c1 & ->%list_elem_of_singleton & _)%list_elem_of_bind
      (c2 & [=]%list_elem_of_singleton & _)%list_elem_of_bind. done.
  - intros r _. apply NoDup_bind; [| |apply loop_range_NoDup].
    + intros c1 c2 u _ _ ->%list_elem_of_singleton [=]%list_elem_of_singleton.
      done.
    + intros c _. apply NoDup_singleton.
Qed.

(** The visible tiles have pairwise different keys. *)
Lemma visible_keys_NoDup s :
  0 ≤ zoom s → NoDup (tileKey <$> getVisibleTiles s).
Proof.
  intros Hz. unfold getVisibleTiles.
  destruct (currentProduct s); [|apply NoDup_nil_2].
  apply NoDup_fmap_2_strong; [|apply visibleTilesAt_NoDup].
  intros u v (Hu & Hru & _)%elem_of_visibleTilesAt
             (Hv & Hrv & _)%elem_of_visibleTilesAt.
  apply elem_of_loop_range in Hru, Hrv.
  pose proof (startIndex_nonneg (zoom s) (py (pan s))).
  apply tileKey_inj_aux; lia.
Qed.

(** X6: the visible tiles are pairwise different, and with a zoom [≥ 0] so
    are their cache keys. *)
Theorem visible_tiles_distinct s :
  0 ≤ zoom s →
  NoDup (getVisibleTiles s) ∧ NoDup (tileKey <$> getVisibleTiles s).
Proof.
  intros Hz. split; [|by apply visible_keys_NoDup].
  unfold getVisibleTiles.
  destruct (currentProduct s); [apply visibleTilesAt_NoDup|apply NoDup_nil_2].
Qed.

Lemma visible_tiles_distinct_witness :
  0 ≤ zoom zoom_scenario ∧
  length (getVisibleTiles zoom_scenario) = 4%nat ∧
  NoDup (tileKey <$> getVisibleTiles zoom_scenario).
Proof.
  assert (Hz : 0 ≤ zoom zoom_scenario) by (simpl; lia).
  split; [exact Hz|]. split; [reflexivity|].
  exact (proj2 (visible_tiles_distinct zoom_scenario Hz)).
Defined.

(** ** Invariants of the reachable states *)

Lemma getVisibleTiles_valid s : 0 ≤ zoom s → Forall valid_tile (getVisibleTiles s).
Proof.
  intros Hz. apply Forall_forall. intros u Hu. unfold getVisibleTiles in Hu.
  destruct (currentProduct s); [|by apply elem_of_nil in Hu].
  destruct (visibleTilesAt_in_grid (zoom s) (pan s)
              (canvas_width s) (canvas_height s) Hz) as [Hin _].
  destruct (Hin u Hu) as (Hu' & ? & ?). unfold valid_tile. rewrite Hu'. done.
Qed.

Lemma bookkeeping_perm ts ts' s :
  ts ≡ₚ ts' → bookkeeping ts s → bookkeeping ts' s.
Proof.
  intros Hp (Hr & Ht & Hc & Hl). split_and!; try done.
  - by rewrite <-Hp.
  - intros k Hk. rewrite <-Hp. by apply Hl.
Qed.

Lemma bookkeeping_clear ts s : bookkeeping ts s → bookkeeping ts (clearTileCache s).
Proof.
  intros (Hr & Ht & Hc & Hl). by split_and!.
Qed.

Lemma fetchLoop_bookkeeping ts tiles s s' ot :
  bookkeeping ts s → Forall valid_tile tiles →
  fetchLoop s tiles = (s', ot) →
  bookkeeping match ot with Some t => t :: ts | None => ts end s'.
Proof.
  intros (Hr & Ht & Hc & Hl) Hv Hloop.
  destruct (fetchLoop_inv _ _ _ _ Hloop) as (_ & Hti & _ & Hot).
  destruct ot as [t|].
  - destruct Hot as (sk & tl & p & -> & Hk & Hreq & _ & _ & _ & Hl' & Hr').
    apply Forall_app in Hv as [_ [Htl Hrest]%Forall_cons].
    unfold bookkeeping. rewrite Hr', Hl', Hti. split_and!.
    + apply Forall_app. split; [done|]. apply Forall_singleton.
      by rewrite Hreq.
    + apply Forall_cons. split.
      * rewrite Hk, Hreq. simpl. split_and!; [done| |done].
        apply elem_of_app. right. by apply list_elem_of_singleton.
      * eapply Forall_impl; [exact Ht|]. intros t0 (? & ? & ?).
        split_and!; [done| |done]. apply elem_of_app. by left.
    + intros k img Hki. destruct (Hc k img Hki) as [? ?].
      split; [done|]. apply elem_of_app. by left.
    + intros k [->%elem_of_singleton|Hk']%elem_of_union; simpl.
      * apply list_elem_of_here.
      * apply list_elem_of_further. by apply Hl.
  - destruct Hot as (Hl' & Hr' & _).
    unfold bookkeeping. rewrite Hr', Hl', Hti. done.
Qed.

Lemma loadVisibleTiles_store_ok s :
  0 ≤ zoom s → store_ok s → store_ok (loadVisibleTiles s).
Proof.
  intros Hz Hs. unfold loadVisibleTiles.
  destruct (currentProduct s) eqn:Hp; [|done].
  destruct (fetchLoop s (getVisibleTiles s)) as [s' ot] eqn:Hloop.
  pose proof (fetchLoop_bookkeeping _ _ _ _ _ Hs (getVisibleTiles_valid s Hz) Hloop) as Hb.
  destruct (fetchLoop_inv _ _ _ _ Hloop) as (_ & _ & Hq & _).
  destruct ot as [t|].
  - unfold store_ok. simpl. rewrite Hq.
    eapply bookkeeping_perm; [|exact Hb]. apply Permutation_cons_append.
  - unfold store_ok. by rewrite Hq.
Qed.

Lemma finishFetch_bookkeeping i t o s :
  pending s !! i = Some t → store_ok s →
  bookkeeping (delete i (pending s)) (finishFetch t o s).
Proof.
  intros Hi Hs.
  pose proof (bookkeeping_perm _ _ _ (delete_Permutation _ _ _ Hi) Hs)
    as (Hr & [(Hk & Hreq & Hrest) Ht]%Forall_cons & Hc & Hl).
  destruct (finishFetch_inv t o s) as (_ & _ & Hr2 & Hl2 & Hti2).
  unfold bookkeeping. rewrite Hr2, Hl2, Hti2. split_and!; try done.
  - intros k img. destruct o; try apply Hc.
    intros [[<- <-]|[_ ?]]%lookup_insert_Some; [done|by apply Hc].
  - intros k [Hk' Hne]%elem_of_difference.
    apply Hl in Hk'. simpl in Hk'.
    apply elem_of_cons in Hk' as [->|?]; [|done]. set_solver.
Qed.

Lemma settle_store_ok i o s s' :
  settle i o s = Some s' → store_ok s → store_ok s'.
Proof.
  unfold settle. intros H Hs.
  destruct (pending s !! i) as [t|] eqn:Hi; [|done].
  destruct (fetchLoop _ (t_rest t)) as [s3 ot] eqn:Hloop. injection H as <-.
  pose proof (finishFetch_bookkeeping i t o s Hi Hs) as Hb.
  assert (Hrest : Forall valid_tile (t_rest t)).
  { destruct Hs as (_ & Ht & _). rewrite Forall_forall in Ht.
    apply (Ht t). apply list_elem_of_lookup. eauto. }
  pose proof (fetchLoop_bookkeeping _ _ _ _ _ Hb Hrest Hloop) as Hb'.
  destruct (fetchLoop_inv _ _ _ _ Hloop) as (_ & _ & Hq & _).
  destruct (finishFetch_inv t o s) as (_ & Hq2 & _).
  unfold store_ok. simpl. rewrite Hq, Hq2. destruct ot as [t'|].
  - eapply bookkeeping_perm; [|exact Hb'].
    symmetry. by eapply insert_delete_perm.
  - exact Hb'.
Qed.

Lemma loadVisibleTiles_view_ok s : view_ok s → view_ok (loadVisibleTiles s).
Proof.
  intros Hv. destruct (loadVisibleTiles_inv s) as ((Hp & Hz & _) & _).
  unfold view_ok in *. rewrite Hp, Hz.
  destruct (currentProduct s) eqn:Hcp; [done|].
  unfold loadVisibleTiles. by rewrite Hcp.
Qed.

Lemma setZoom_inv_ok target s :
  view_ok s ∧ store_ok s → view_ok (setZoom target s) ∧ store_ok (setZoom target s).
Proof.
  intros [Hv Hs]. unfold setZoom.
  destruct (currentProduct s) as [p|] eqn:Hp; [|done].
  assert (Hv1 : view_ok (set_zoom (clampZoom p target) s)).
  { unfold view_ok. simpl. rewrite Hp. unfold clampZoom. lia. }
  simpl. destruct (negb _); [|done]. clear Hv1. split.
  - apply loadVisibleTiles_view_ok.
    unfold view_ok. simpl. rewrite Hp. unfold clampZoom. lia.
  - apply loadVisibleTiles_store_ok; [simpl; unfold clampZoom; lia|].
    by apply bookkeeping_clear.
Qed.

Lemma handleMouseMove_inv_ok x y s :
  view_ok s ∧ store_ok s →
  view_ok (handleMouseMove x y s) ∧ store_ok (handleMouseMove x y s).
Proof.
  intros [Hv Hs]. unfold handleMouseMove. destruct (isDragging s); [|done].
  split.
  - by apply loadVisibleTiles_view_ok.
  - apply loadVisibleTiles_store_ok; [apply Hv|done].
Qed.

Lemma resetView_view_ok s : view_ok s → view_ok (resetView s).
Proof.
  intros [_ Hv]. unfold view_ok. simpl.
  destruct (currentProduct s); [lia|]. destruct Hv as (_ & ?). done.
Qed.

Lemma step_inv_ok e s s' :
  step e s = Some s' → view_ok s ∧ store_ok s → view_ok s' ∧ store_ok s'.
Proof.
  destruct e; simpl; intros H [Hv Hs]; try (injection H as <-).
  - unfold resizeCanvas. simpl. destruct (currentProduct s) eqn:Hp; [|done].
    split.
    + by apply loadVisibleTiles_view_ok.
    + apply loadVisibleTiles_store_ok; [apply Hv|done].
  - unfold productsLoaded. destruct ps as [|p ps]; [done|].
    split; [|done]. unfold view_ok. simpl. lia.
  - destruct o as [p|]; [|done]. unfold handleProductChange.
    assert (Hv1 : view_ok (clearTileCache (resetView (set_currentProduct (Some p) s))))
      by (unfold view_ok; simpl; lia).
    split.
    + by apply loadVisibleTiles_view_ok.
    + apply loadVisibleTiles_store_ok; [simpl; lia|].
      by apply bookkeeping_clear.
  - by apply setZoom_inv_ok.
  - by apply setZoom_inv_ok.
  - split; [by apply resetView_view_ok|done].
  - by apply setZoom_inv_ok.
  - done.
  - by apply handleMouseMove_inv_ok.
  - done.
  - done.
  - by apply handleMouseMove_inv_ok.
  - done.
  - split; [|by eapply settle_store_ok].
    unfold settle in H. destruct (pending s !! i) as [t|] eqn:Hi; [|done].
    destruct (fetchLoop _ (t_rest t)) as [s3 ot] eqn:Hloop. injection H as <-.
    destruct (fetchLoop_inv _ _ _ _ Hloop) as ((Hp & Hz & _) & _).
    destruct (finishFetch_inv t o s) as ((Hp2 & Hz2 & _) & _).
    unfold view_ok in *. simpl. rewrite Hp, Hz, Hp2, Hz2.
    destruct (currentProduct s); [done|].
    destruct Hv as (_ & _ & _ & Hq & _). by rewrite Hq in Hi.
Qed.

Lemma reachable_inv_ok s : reachable s → view_ok s ∧ store_ok s.
Proof.
  induction 1 as [w h|s e s' _ IH Hs].
  - split.
    + unfold view_ok. simpl. split_and!; done.
    + unfold store_ok, bookkeeping. simpl. by split_and!.
  - by eapply step_inv_ok.
Qed.

(** X3: in every reachable state the zoom is not negative; with a product
    selected it is at most the larger of 1 and the product's [max_zoom] (a
    reset puts it at 1 whatever [max_zoom] is); with none it is 1. *)
Theorem zoom_in_range s :
  reachable s →
  0 ≤ zoom s ∧
  (∀ p, currentProduct s = Some p → zoom s ≤ Z.max 1 (max_zoom p)) ∧
  (currentProduct s = None → zoom s = 1).
Proof.
  intros [[Hz Hv] _]%reachable_inv_ok. split; [done|].
  destruct (currentProduct s) as [p|].
  - split; [by intros ? [= <-]|done].
  - split; [done|]. by destruct Hv.
Qed.

(** A product whose only level is 0 is shown at zoom 1 once loaded. *)
Lemma zoom_in_range_witness :
  reachable (exec [EvProductsLoaded [flat]] (initial 1024 768)) ∧
  currentProduct (exec [EvProductsLoaded [flat]] (initial 1024 768)) = Some flat ∧
  max_zoom flat = 0 ∧
  zoom (exec [EvProductsLoaded [flat]] (initial 1024 768)) = 1 ∧
  0 ≤ zoom (exec [EvProductsLoaded [flat]] (initial 1024 768)).
Proof.
  assert (Hr : reachable (exec [EvProductsLoaded [flat]] (initial 1024 768)))
    by apply exec_reachable, reach_initial.
  split; [exact Hr|]. do 3 (split; [reflexivity|]).
  exact (proj1 (zoom_in_range _ Hr)).
Defined.

(** X8: in every reachable state, every tile request that was ever sent is
    for a tile of the grid of its zoom level: zoom [≥ 0] and
    [0 ≤ row, col < 2^zoom]. *)
Theorem requests_in_grid s r :
  reachable s → r ∈ requests s → valid_tile (req_tile r).
Proof.
  intros [_ (Hr & _)]%reachable_inv_ok Hin.
  rewrite Forall_forall in Hr. by apply Hr.
Qed.

Lemma requests_in_grid_witness :
  reachable (exec pan_while_loading (initial 1024 768)) ∧
  {| req_product := "moon"; req_tile := {| row := 1; col := 1; tzoom := 1 |} |}
    ∈ requests (exec pan_while_loading (initial 1024 768)) ∧
  valid_tile {| row := 1; col := 1; tzoom := 1 |}.
Proof.
  assert (Hr : reachable (exec pan_while_loading (initial 1024 768)))
    by apply exec_reachable, reach_initial.
  assert (Hin : {| req_product := "moon";
                   req_tile := {| row := 1; col := 1; tzoom := 1 |} |}
                ∈ requests (exec pan_while_loading (initial 1024 768)))
    by (vm_compute; repeat constructor).
  split; [exact Hr|]. split; [exact Hin|].
  exact (requests_in_grid _ _ Hr Hin).
Defined.

(** X9: in every reachable state, a key in the in-flight set is the key of
    a suspended activation, which awaits a request that was sent for a tile
    with that key: no key is left in flight with nothing to unmark it. *)
Theorem inflight_has_pending_fetch s k :
  reachable s → k ∈ loadingTiles s →
  ∃ t, t ∈ pending s ∧ t_key t = k ∧
       tileKey (req_tile (t_req t)) = k ∧ t_req t ∈ requests s.
Proof.
  intros [_ (_ & Ht & _ & Hl)]%reachable_inv_ok Hin.
  apply Hl, list_elem_of_fmap in Hin as (t & -> & Hin).
  rewrite Forall_forall in Ht. destruct (Ht t Hin) as (Hk & Hreq & _).
  exists t. by split_and!.
Qed.

Lemma inflight_has_pending_fetch_witness :
  reachable (exec pan_while_loading (initial 1024 768)) ∧
  "1-1-0" ∈ loadingTiles (exec pan_while_loading (initial 1024 768)) ∧
  ∃ t, t ∈ pending (exec pan_while_loading (initial 1024 768)) ∧ t_key t = "1-1-0".
Proof.
  assert (Hr : reachable (exec pan_while_loading (initial 1024 768)))
    by apply exec_reachable, reach_initial.
  assert (Hin : "1-1-0" ∈ loadingTiles (exec pan_while_loading (initial 1024 768))).
  { apply (bool_decide_unpack _). vm_compute. exact I. }
  split; [exact Hr|]. split; [exact Hin|].
  destruct (inflight_has_pending_fetch _ _ Hr Hin) as (t & Ht & Hk & _).
  exists t. split; [exact Ht|exact Hk].
Defined.

(** X10: in every reachable state, as long as no product is selected no
    tile request has been sent, no fetch is pending, and the cache and the
    in-flight set are empty. *)
Theorem nothing_fetched_without_product s :
  reachable s → currentProduct s = None →
  requests s = [] ∧ pending s = [] ∧ tileImages s = ∅ ∧ loadingTiles s = ∅.
Proof.
  intros [[_ Hv] _]%reachable_inv_ok Hp. rewrite Hp in Hv. tauto.
Qed.

Lemma nothing_fetched_without_product_witness :
  reachable (exec early_drag (initial 1024 768)) ∧
  currentProduct (exec early_drag (initial 1024 768)) = None ∧
  requests (exec early_drag (initial 1024 768)) = [].
Proof.
  assert (Hr : reachable (exec early_drag (initial 1024 768)))
    by apply exec_reachable, reach_initial.
  assert (Hp : currentProduct (exec early_drag (initial 1024 768)) = None)
    by (vm_compute; reflexivity).
  split; [exact Hr|]. split; [exact Hp|].
  exact (proj1 (nothing_fetched_without_product _ Hr Hp)).
Defined.

(** ** What a frame shows *)

(** X11: in every reachable state, a square that [render] fills with an
    image shows an image that was requested for exactly that tile (zoom, row
    and column), and a square labelled "Downloading..." belongs to a tile
    whose request is awaited by a suspended activation. *)
Theorem render_is_truthful s ops op :
  reachable s → render s = FrameTiles ops → op ∈ ops →
  match d_what op with
  | PaintImage img =>
      req_tile (img_src img) = d_tile op ∧ img_src img ∈ requests s
  | PaintDownloading =>
      ∃ t, t ∈ pending s ∧ req_tile (t_req t) = d_tile op ∧
           t_req t ∈ requests s
  | PaintIdle =>
      tileImages s !! tileKey (d_tile op) = None ∧
      tileKey (d_tile op) ∉ loadingTiles s
  end.
Proof.
  intros Hr Hrender Hop.
  pose proof (reachable_inv_ok s Hr) as [[Hz _] (Hreq & Ht & Hc & Hl)].
  unfold render in Hrender. destruct (currentProduct s); [|done].
  injection Hrender as <-.
  apply list_elem_of_fmap in Hop as (u & -> & Hu).
  pose proof (getVisibleTiles_valid s Hz) as Hval.
  rewrite Forall_forall in Hval. rewrite Forall_forall in Hreq.
  rewrite Forall_forall in Ht.
  destruct (Hval u Hu) as (Hzu & [Hru _] & _).
  simpl. destruct (tileImages s !! tileKey u) as [img|] eqn:Himg.
  - destruct (Hc _ _ Himg) as [Hk Hin]. split; [|done].
    destruct (Hreq _ Hin) as (? & [? _] & _).
    symmetry. by apply tileKey_inj_aux.
  - case_bool_decide as Hload; [|done].
    apply Hl, list_elem_of_fmap in Hload as (t & Hk & Hin).
    destruct (Ht t Hin) as (Hk' & Hin' & _).
    destruct (Hreq _ Hin') as (? & [? _] & _).
    exists t. split_and!; [done| |done].
    symmetry. apply tileKey_inj_aux; [done..|]. congruence.
Qed.

Lemma render_is_truthful_witness :
  reachable (exec pan_while_loading (initial 1024 768)) ∧
  ∃ ops op,
    render (exec pan_while_loading (initial 1024 768)) = FrameTiles ops ∧
    ops !! 0%nat = Some op ∧
    ∃ img, d_what op = PaintImage img ∧
           req_tile (img_src img) = {| row := 0; col := 0; tzoom := 1 |}.
Proof.
  assert (Hr : reachable (exec pan_while_loading (initial 1024 768)))
    by apply exec_reachable, reach_initial.
  split; [exact Hr|].
  eassert (Hf : render (exec pan_while_loading (initial 1024 768)) = FrameTiles _)
    by (vm_compute; reflexivity).
  match type of Hf with
  | _ = FrameTiles (?o :: ?rest) =>
      pose proof (render_is_truthful _ _ o Hr Hf (list_elem_of_here _ _)) as H;
      exists (o :: rest), o
  end.
  split; [exact Hf|]. split; [reflexivity|].
  lazy beta iota delta [d_what] in H.
  eexists. split; [reflexivity|]. exact (proj1 H).
Defined.

(** Along one axis: a point of the canvas that lies over the grid is in the
    tile of an index of the loop. *)
Lemma axis_cover z p size x :
  0 ≤ z →
  (0 <= x)%Q → (x < inject_Z size)%Q →
  (p <= x)%Q → (x < p + tileScale z * pow2 z)%Q →
  ∃ c, c ∈ loop_range (startIndex z p) (endIndex z p size) ∧
       (inject_Z c * tileScale z + p <= x)%Q ∧
       (x < inject_Z c * tileScale z + p + tileScale z)%Q.
Proof.
  intros Hz Hx0 Hx1 Hp0 Hp1.
  pose proof (tileScale_pos z) as HS.
  assert (E : ((x - p) / tileScale z * tileScale z == x - p)%Q) by (field; lra).
  pose proof (Qfloor_le ((x - p) / tileScale z)) as Hf1.
  pose proof (Qlt_floor ((x - p) / tileScale z)) as Hf2.
  rewrite inject_Z_plus in Hf2. change (inject_Z 1) with 1%Q in Hf2.
  assert (Hq0 : (0 <= (x - p) / tileScale z)%Q)
    by (apply Qle_shift_div_l; [done|lra]).
  assert (Hq1 : ((x - p) / tileScale z < inject_Z (2 ^ z))%Q).
  { rewrite <-(pow2_inject z Hz). apply Qlt_shift_div_r; [done|lra]. }
  exists (Qfloor ((x - p) / tileScale z)).
  revert E Hf1 Hf2 Hq0 Hq1. generalize ((x - p) / tileScale z)%Q.
  intros q E Hf1 Hf2 Hq0 Hq1.
  assert (Hlo : (inject_Z (Qfloor q) * tileScale z + p <= x)%Q) by nra.
  assert (Hhi : (x < inject_Z (Qfloor q) * tileScale z + p + tileScale z)%Q) by nra.
  split; [|done].
  apply range_complete; [done| |lra|lra]. split.
  - rewrite <-(Qfloor_Z 0). by apply Qfloor_resp_le.
  - rewrite Zlt_Qlt. eapply Qle_lt_trans; [exact Hf1|exact Hq1].
Qed.

(** X12: with a product selected and a zoom [≥ 0], every point of the
    canvas that lies over the tile grid is inside a square that [render]
    paints: a frame leaves no hole over the grid. *)
Theorem render_covers_canvas s x y :
  is_Some (currentProduct s) → 0 ≤ zoom s →
  (0 <= x)%Q → (x < inject_Z (canvas_width s))%Q →
  (0 <= y)%Q → (y < inject_Z (canvas_height s))%Q →
  (px (pan s) <= x)%Q →
  (x < px (pan s) + tileScale (zoom s) * pow2 (zoom s))%Q →
  (py (pan s) <= y)%Q →
  (y < py (pan s) + tileScale (zoom s) * pow2 (zoom s))%Q →
  ∃ ops op,
    render s = FrameTiles ops ∧ op ∈ ops ∧
    (d_x op <= x)%Q ∧ (x < d_x op + d_size op)%Q ∧
    (d_y op <= y)%Q ∧ (y < d_y op + d_size op)%Q.
Proof.
  intros [p Hp] Hz Hx0 Hx1 Hy0 Hy1 Hpx0 Hpx1 Hpy0 Hpy1.
  destruct (axis_cover _ _ _ _ Hz Hx0 Hx1 Hpx0 Hpx1) as (c & Hc & Hc0 & Hc1).
  destruct (axis_cover _ _ _ _ Hz Hy0 Hy1 Hpy0 Hpy1) as (r & Hr & Hr0 & Hr1).
  unfold render. rewrite Hp.
  exists (drawTile s <$> getVisibleTiles s),
         (drawTile s {| row := r; col := c; tzoom := zoom s |}).
  split; [done|]. split; [|done].
  apply list_elem_of_fmap_2. unfold getVisibleTiles. rewrite Hp.
  by apply elem_of_visibleTilesAt.
Qed.

Lemma render_covers_canvas_witness :
  ∃ ops op,
    render zoom_scenario = FrameTiles ops ∧ op ∈ ops ∧
    (d_x op <= 700)%Q ∧ (700 < d_x op + d_size op)%Q ∧
    (d_y op <= 100)%Q ∧ (100 < d_y op + d_size op)%Q.
Proof.
  apply (render_covers_canvas zoom_scenario 700 100);
    try (vm_compute; done).
  by exists moon.
Defined.

(** ** What an event does to the cache *)

(** X13: one event leaves the cache as it is, or empties it, which only an
    invalidating event (an effective zoom change, a product change) does, or
    adds the image of the one fetch that just succeeded; single entries are
    never removed. *)
Theorem cache_changes_by_clear_or_success e s s' :
  step e s = Some s' →
  tileImages s' = tileImages s ∨
  (tileImages s' = ∅ ∧ invalidates e s = true) ∨
  (∃ i t, e = EvSettle i Loaded ∧ pending s !! i = Some t ∧
          tileImages s' = <[ t_key t := {| img_src := t_req t |} ]> (tileImages s)).
Proof.
  assert (Hz : ∀ target,
    tileImages (setZoom target s) = tileImages s ∨
    (tileImages (setZoom target s) = ∅ ∧ zoom_changes target s = true)).
  { intros target. destruct (zoom_changes target s) eqn:Hch.
    - right. split; [|done]. unfold zoom_changes in Hch.
      destruct (currentProduct s) as [p|] eqn:Hp; [|done].
      apply negb_true_iff, Z.eqb_neq in Hch.
      rewrite (setZoom_changed s target p Hp Hch).
      by destruct (loadVisibleTiles_inv
        (clearTileCache
           (set_pan (zoomedPan (zoom s) (clampZoom p target) (pan s)
                       (canvas_width s) (canvas_height s))
              (set_zoom (clampZoom p target) s)))) as (_ & -> & _).
    - left. by rewrite setZoom_unchanged. }
  assert (Hm : ∀ x y, tileImages (handleMouseMove x y s) = tileImages s).
  { intros x y. unfold handleMouseMove. destruct (isDragging s); [|done].
    by destruct (loadVisibleTiles_inv
      (set_pan {| px := (x - px (dragStart s))%Q;
                  py := (y - py (dragStart s))%Q |} s)) as (_ & -> & _). }
  destruct e; simpl; intros H; try (injection H as <-); auto.
  - left. unfold resizeCanvas. simpl. destruct (currentProduct s); [|done].
    by destruct (loadVisibleTiles_inv
      (set_canvas (Z.of_N w) (Z.of_N h) s)) as (_ & -> & _).
  - left. unfold productsLoaded. by destruct ps.
  - destruct o as [p|]; [|by left]. right. left. split; [|done].
    unfold handleProductChange.
    by destruct (loadVisibleTiles_inv
      (clearTileCache (resetView (set_currentProduct (Some p) s))))
      as (_ & -> & _).
  - destruct (Hz (zoom s + 1)) as [?|?]; auto.
  - destruct (Hz (zoom s - 1)) as [?|?]; auto.
  - unfold handleWheel.
    destruct (Hz (zoom s + (if Qlt_le_dec 0 deltaY then -1 else 1))) as [?|?]; auto.
  - unfold settle in H. destruct (pending s !! i) as [t|] eqn:Hi; [|done].
    destruct (fetchLoop _ (t_rest t)) as [s3 ot] eqn:Hloop. injection H as <-.
    destruct (fetchLoop_inv _ _ _ _ Hloop) as (_ & Hti & _).
    destruct (finishFetch_inv t o s) as (_ & _ & _ & _ & Hti2).
    simpl. rewrite Hti, Hti2. destruct o; auto.
    right. right. by exists i, t.
Qed.

Lemma cache_changes_by_clear_or_success_witness :
  step EvZoomIn (exec pan_while_loading (initial 1024 768))
    = Some (setZoom 2 (exec pan_while_loading (initial 1024 768))) ∧
  tileImages (setZoom 2 (exec pan_while_loading (initial 1024 768))) = ∅ ∧
  invalidates EvZoomIn (exec pan_while_loading (initial 1024 768)) = true.
Proof.
  assert (Hs : step EvZoomIn (exec pan_while_loading (initial 1024 768))
    = Some (setZoom 2 (exec pan_while_loading (initial 1024 768))))
    by (vm_compute; reflexivity).
  split; [exact Hs|].
  destruct (cache_changes_by_clear_or_success _ _ _ Hs) as [H|[H|H]].
  - exfalso. apply (f_equal (λ m, m !! "1-0-0")) in H.
    vm_compute in H. discriminate H.
  - exact H.
  - exfalso. destruct H as (i & t & H & _). discriminate H.
Defined.

(** ** Dragging and zooming *)







(** ** One request per missing tile *)

Lemma needs_fetch_ext s s' k :
  tileImages s' !! k = tileImages s !! k →
  (k ∈ loadingTiles s' ↔ k ∈ loadingTiles s) →
  needs_fetch s' k = needs_fetch s k.
Proof.
  intros Hti Hl. unfold needs_fetch. rewrite Hti. f_equal.
  apply bool_decide_ext. by rewrite Hl.
Qed.

Lemma needs_fetch_finishFetch t o s k :
  k ≠ t_key t → needs_fetch (finishFetch t o s) k = needs_fetch s k.
Proof.
  intros Hne. destruct (finishFetch_inv t o s) as (_ & _ & _ & Hl & Hti).
  apply needs_fetch_ext.
  - rewrite Hti. destruct o; try done. by rewrite lookup_insert_ne.
  - rewrite Hl. set_solver.
Qed.

Lemma filter_needs_ext s s' (l : list Tile) :
  (∀ u, u ∈ l → needs_fetch s' (tileKey u) = needs_fetch s (tileKey u)) →
  filter (λ u, needs_fetch s' (tileKey u) = true) l
  = filter (λ u, needs_fetch s (tileKey u) = true) l.
Proof.
  induction l as [|u l IH]; intros H; [done|].
  rewrite !filter_cons, (H u) by apply list_elem_of_here.
  rewrite IH by (intros v Hv; apply H; by apply list_elem_of_further).
  done.
Qed.

Lemma filter_needs_none s (l : list Tile) :
  Forall (λ u, needs_fetch s (tileKey u) = false) l →
  filter (λ u, needs_fetch s (tileKey u) = true) l = [].
Proof.
  induction 1 as [|u l Hu _ IH]; [done|].
  rewrite filter_cons_False by congruence. exact IH.
Qed.

(** An uninterrupted pass sends, after the request it awaits, one request
    for each remaining tile that is neither cached nor in flight, in the
    order of its list. *)
Lemma drive_exact (rest : list Tile) :
  ∀ os s i t0 p,
    pending s !! i = Some t0 → length (pending s) = S i → t_rest t0 = rest →
    currentProduct s = Some p →
    (length rest < length os)%nat →
    NoDup (tileKey <$> rest) → t_key t0 ∉ tileKey <$> rest →
    requests (drive os i s)
    = requests s ++
      (tileRequest p <$> filter (λ u, needs_fetch s (tileKey u) = true) rest).
Proof.
  induction rest as [rest IH] using (induction_ltof1 _ (@length _)).
  unfold ltof in IH.
  intros os s i t0 p Hi Hlen Hrest Hp Hos Hnd Hk0.
  destruct os as [|o os]; [simpl in Hos; lia|].
  simpl; unfold settle; rewrite Hi, Hrest.
  destruct (fetchLoop (finishFetch t0 o s) rest) as [s3 ot] eqn:Hl.
  destruct (fetchLoop_inv _ _ _ _ Hl) as (Hv & Hti & Hq & Hot).
  destruct (finishFetch_inv t0 o s) as (Hv2 & Hq2 & Hr2 & Hl2 & Hti2).
  assert (Hsame : ∀ u, u ∈ rest →
            needs_fetch (finishFetch t0 o s) (tileKey u) = needs_fetch s (tileKey u)).
  { intros u Hu. apply needs_fetch_finishFetch. intros Heq. apply Hk0.
    rewrite <-Heq. by apply list_elem_of_fmap_2. }
  rewrite <-(filter_needs_ext s (finishFetch t0 o s) rest Hsame).
  assert (Hp2 : currentProduct (finishFetch t0 o s) = Some p).
  { destruct Hv2 as (-> & _). done. }
  destruct ot as [t'|].
  - destruct Hot as (sk & tl & p' & Hsplit & Hk' & Hr' & Hp' & Hsk & Hn' & Hl3 & Hr3).
    assert (p' = p) as -> by congruence.
    set (s' := set_pending (<[i:=t']> (pending s3)) s3).
    rewrite Hsplit in Hnd. rewrite fmap_app, fmap_cons in Hnd.
    apply NoDup_app in Hnd as (_ & _ & [Htl Hnd']%NoDup_cons).
    rewrite (IH (t_rest t') ltac:(rewrite Hsplit, length_app; simpl; lia)
               os s' i t' p).
    + unfold s' at 1. simpl. rewrite Hr3, Hr2, <-app_assoc. f_equal.
      rewrite Hsplit, filter_app, (filter_needs_none _ _ Hsk).
      rewrite filter_cons_True by (by rewrite <-Hk'). simpl.
      rewrite Hr'. unfold tileRequest at 2. f_equal. f_equal.
      apply filter_needs_ext. intros u Hu. apply needs_fetch_ext.
      * unfold s'. simpl. by rewrite Hti.
      * unfold s'. simpl. rewrite Hl3.
        assert (tileKey u ≠ t_key t'); [|set_solver].
        rewrite Hk'. intros Heq. apply Htl. rewrite <-Heq.
        by apply list_elem_of_fmap_2.
    + unfold s'. simpl. apply list_lookup_insert_eq. rewrite Hq, Hq2. lia.
    + unfold s'. simpl. rewrite length_insert. by rewrite Hq, Hq2.
    + done.
    + unfold s'. simpl. destruct Hv as (-> & _). done.
    + rewrite Hsplit, length_app in Hos. simpl in Hos. lia.
    + done.
    + by rewrite Hk'.
  - destruct Hot as (Hl3 & Hr3 & Hall).
    rewrite drive_stops.
    2:{ simpl. apply lookup_ge_None. rewrite length_delete, Hq, Hq2, Hlen by
          (rewrite Hq, Hq2; eauto). simpl. lia. }
    simpl. rewrite Hr3, Hr2.
    rewrite (filter_needs_none _ _ (Hall ltac:(rewrite Hp2; eauto))).
    simpl. by rewrite app_nil_r.
Qed.

(** X14: a visibility pass started with a product selected and a zoom
    [≥ 0], and run to its end with no other handler in between, sends
    exactly one request for each visible tile that is neither cached nor in
    flight at its start, in the order of the visible tiles, and no other
    request, whatever the outcomes of its fetches. *)
Theorem pass_requests_each_missing_tile_once s os p :
  currentProduct s = Some p → 0 ≤ zoom s →
  (length (getVisibleTiles s) ≤ length os)%nat →
  requests_since (length (requests s))
    (drive os (length (pending s)) (loadVisibleTiles s))
  = tileRequest p <$>
      filter (λ u, needs_fetch s (tileKey u) = true) (getVisibleTiles s).
Proof.
  intros Hp Hz Hos. unfold requests_since.
  pose proof (visible_keys_NoDup s Hz) as Hnd.
  destruct (loadVisibleTiles_inv s) as (Hv & Hti & [H|H]).
  - destruct H as (Hl & Hr & Hq & Hall).
    rewrite drive_stops by (rewrite Hq; by apply lookup_ge_None).
    rewrite Hr, drop_all, (filter_needs_none _ _ Hall). done.
  - destruct H as (t & sk & tl & p' & Hvis & Hk & Hr & Hp' & Hsk & Hn & Hl & Hrq & Hq).
    assert (p' = p) as -> by congruence.
    rewrite Hvis, fmap_app, fmap_cons in Hnd.
    apply NoDup_app in Hnd as (_ & _ & [Htl Hnd']%NoDup_cons).
    rewrite (drive_exact (t_rest t) os (loadVisibleTiles s) (length (pending s)) t p).
    + rewrite Hrq, <-app_assoc, drop_app_length.
      rewrite Hvis, filter_app, (filter_needs_none _ _ Hsk).
      rewrite filter_cons_True by (by rewrite <-Hk). simpl.
      rewrite Hr. unfold tileRequest at 2. f_equal. f_equal.
      apply filter_needs_ext. intros u Hu. apply needs_fetch_ext.
      * by rewrite Hti.
      * rewrite Hl. assert (tileKey u ≠ t_key t); [|set_solver].
        rewrite Hk. intros Heq. apply Htl. rewrite <-Heq.
        by apply list_elem_of_fmap_2.
    + rewrite Hq. by apply list_lookup_middle.
    + rewrite Hq, length_app. simpl. lia.
    + done.
    + destruct Hv as (-> & _). done.
    + rewrite Hvis, length_app in Hos. simpl in Hos. lia.
    + done.
    + by rewrite Hk.
Qed.

Lemma pass_requests_each_missing_tile_once_witness :
  currentProduct zoom_scenario = Some moon ∧ 0 ≤ zoom zoom_scenario ∧
  requests_since 0
    (drive [Loaded; NotFound; Loaded; TransportError] 0
       (loadVisibleTiles zoom_scenario))
  = [ tileRequest moon {| row := 0; col := 0; tzoom := 1 |};
      tileRequest moon {| row := 0; col := 1; tzoom := 1 |};
      tileRequest moon {| row := 1; col := 0; tzoom := 1 |};
      tileRequest moon {| row := 1; col := 1; tzoom := 1 |} ].
Proof.
  assert (Hp : currentProduct zoom_scenario = Some moon) by reflexivity.
  assert (Hz : 0 ≤ zoom zoom_scenario) by (simpl; lia).
  split; [exact Hp|]. split; [exact Hz|].
  pose proof (pass_requests_each_missing_tile_once zoom_scenario
                [Loaded; NotFound; Loaded; TransportError] moon Hp Hz) as H.
  etrans; [apply H; vm_compute; lia|]. vm_compute. reflexivity.
Defined.

(** ** Quick cache *)

Lemma MathMin_spec x l :
  MathMin x l ∈ x :: l ∧ ∀ y, y ∈ x :: l → MathMin x l ≤ y.
Proof.
  induction l as [|z l [IHin IHle]]; simpl.
  - split; [apply list_elem_of_here|]. by intros y ->%list_elem_of_singleton.
  - change (foldr Z.min x l) with (MathMin x l). split.
    + destruct (Z.min_spec z (MathMin x l)) as [[_ ->]|[_ ->]].
      * apply list_elem_of_further, list_elem_of_here.
      * apply elem_of_cons in IHin as [->|?].
        -- apply list_elem_of_here.
        -- by do 2 apply list_elem_of_further.
    + intros y [->|[->|Hy]%elem_of_cons]%elem_of_cons.
      * specialize (IHle x (list_elem_of_here _ _)). lia.
      * lia.
      * specialize (IHle y (list_elem_of_further _ _ _ Hy)). lia.
Qed.

Lemma MathMax_spec x l :
  MathMax x l ∈ x :: l ∧ ∀ y, y ∈ x :: l → y ≤ MathMax x l.
Proof.
  induction l as [|z l [IHin IHle]]; simpl.
  - split; [apply list_elem_of_here|]. by intros y ->%list_elem_of_singleton.
  - change (foldr Z.max x l) with (MathMax x l). split.
    + destruct (Z.max_spec z (MathMax x l)) as [[_ ->]|[_ ->]].
      * apply elem_of_cons in IHin as [->|?].
        -- apply list_elem_of_here.
        -- by do 2 apply list_elem_of_further.
      * apply list_elem_of_further, list_elem_of_here.
    + intros y [->|[->|Hy]%elem_of_cons]%elem_of_cons.
      * specialize (IHle x (list_elem_of_here _ _)). lia.
      * lia.
      * specialize (IHle y (list_elem_of_further _ _ _ Hy)). lia.
Qed.

(** X15: [handleQuickCache] alerts instead of posting when no tile is
    visible; when it posts, the request is for the selected product and the
    current zoom, and its row and column ranges hold exactly the visible
    tiles: a tile of the current zoom is visible if and only if its row and
    column are within the ranges. *)
Theorem quick_cache_range_is_visible_set s :
  (getVisibleTiles s = [] → ∃ msg, handleQuickCache s = QuickAlert msg) ∧
  (∀ g, handleQuickCache s = QuickPost g →
     (∃ p, currentProduct s = Some p ∧ g_product g = id p) ∧
     g_zoom g = zoom s ∧
     ∀ r c,
       {| row := r; col := c; tzoom := zoom s |} ∈ getVisibleTiles s ↔
       g_start_row g ≤ r ≤ g_end_row g ∧ g_start_col g ≤ c ≤ g_end_col g).
Proof.
  unfold handleQuickCache. split.
  - intros ->. destruct (currentProduct s); eauto.
  - intros g Hg. destruct (currentProduct s) as [p|] eqn:Hp; [|done].
    destruct (getVisibleTiles s) as [|u us] eqn:Hvis; [done|].
    injection Hg as <-. simpl.
    assert (Hmem : ∀ v, v ∈ u :: us ↔
      tzoom v = zoom s ∧
      row v ∈ loop_range (startIndex (zoom s) (py (pan s)))
                (endIndex (zoom s) (py (pan s)) (canvas_height s)) ∧
      col v ∈ loop_range (startIndex (zoom s) (px (pan s)))
                (endIndex (zoom s) (px (pan s)) (canvas_width s))).
    { intros v. rewrite <-Hvis. unfold getVisibleTiles. rewrite Hp.
      apply elem_of_visibleTilesAt. }
    assert (Hrow : ∀ y, y ∈ row u :: (row <$> us) → ∃ v, v ∈ u :: us ∧ row v = y).
    { intros y Hy. change (row u :: (row <$> us)) with (row <$> u :: us) in Hy.
      apply list_elem_of_fmap in Hy as (v & -> & Hv). eauto. }
    assert (Hcol : ∀ y, y ∈ col u :: (col <$> us) → ∃ v, v ∈ u :: us ∧ col v = y).
    { intros y Hy. change (col u :: (col <$> us)) with (col <$> u :: us) in Hy.
      apply list_elem_of_fmap in Hy as (v & -> & Hv). eauto. }
    destruct (MathMin_spec (row u) (row <$> us)) as [Hr1 Hr1'].
    destruct (MathMax_spec (row u) (row <$> us)) as [Hr2 Hr2'].
    destruct (MathMin_spec (col u) (col <$> us)) as [Hc1 Hc1'].
    destruct (MathMax_spec (col u) (col <$> us)) as [Hc2 Hc2'].
    split; [eauto|]. split.
    { apply (Hmem u). apply list_elem_of_here. }
    intros r c. rewrite Hmem. simpl. split.
    + intros (_ & Hr & Hc).
      assert (Hin : {| row := r; col := c; tzoom := zoom s |} ∈ u :: us)
        by (by apply Hmem).
      pose proof (list_elem_of_fmap_2 row _ _ Hin) as Hinr.
      pose proof (list_elem_of_fmap_2 col _ _ Hin) as Hinc.
      specialize (Hr1' r Hinr). specialize (Hr2' r Hinr).
      specialize (Hc1' c Hinc). specialize (Hc2' c Hinc). lia.
    + intros [Hr Hc]. split; [done|].
      destruct (Hrow _ Hr1) as (v1 & (_ & Hv1 & _)%Hmem & E1).
      destruct (Hrow _ Hr2) as (v2 & (_ & Hv2 & _)%Hmem & E2).
      destruct (Hcol _ Hc1) as (v3 & (_ & _ & Hv3)%Hmem & E3).
      destruct (Hcol _ Hc2) as (v4 & (_ & _ & Hv4)%Hmem & E4).
      apply elem_of_loop_range in Hv1, Hv2, Hv3, Hv4.
      split; apply elem_of_loop_range; lia.
Qed.

Lemma quick_cache_range_is_visible_set_witness :
  handleQuickCache zoom_scenario
  = QuickPost {| g_product := "moon"; g_zoom := 1;
                 g_start_row := 0; g_end_row := 1;
                 g_start_col := 0; g_end_col := 1 |} ∧
  {| row := 1; col := 0; tzoom := 1 |} ∈ getVisibleTiles zoom_scenario.
Proof.
  assert (Hg : handleQuickCache zoom_scenario
    = QuickPost {| g_product := "moon"; g_zoom := 1;
                   g_start_row := 0; g_end_row := 1;
                   g_start_col := 0; g_end_col := 1 |}) by reflexivity.
  split; [exact Hg|].
  destruct (proj2 (quick_cache_range_is_visible_set zoom_scenario) _ Hg)
    as (_ & _ & Hiff).
  apply (Hiff 1 0). simpl. lia.
Defined.

(** ** The end of a pass *)

Lemma delete_last {A} (l : list A) x : delete (length l) (l ++ [x]) = l.
Proof. induction l as [|y l IH]; simpl; [done|]. by rewrite IH. Qed.

Lemma insert_last {A} (l : list A) x y :
  <[ length l := y ]> (l ++ [x]) = l ++ [y].
Proof. induction l as [|z l IH]; simpl; [done|]. by rewrite IH. Qed.

(** An uninterrupted pass whose activation is the last one gives back the
    in-flight set and the suspended activations it found, and keeps the
    cache entries. *)
Lemma drive_restores (rest : list Tile) :
  ∀ os s t0 ts (L : gset string),
    pending s = ts ++ [t0] → t_rest t0 = rest →
    loadingTiles s = {[ t_key t0 ]} ∪ L → t_key t0 ∉ L →
    tileImages s !! t_key t0 = None →
    (length rest < length os)%nat →
    pending (drive os (length ts) s) = ts ∧
    loadingTiles (drive os (length ts) s) = L ∧
    ∀ k img, tileImages s !! k = Some img →
             tileImages (drive os (length ts) s) !! k = Some img.
Proof.
  induction rest as [rest IH] using (induction_ltof1 _ (@length _)).
  unfold ltof in IH.
  intros os s t0 ts L Hq Hrest Hl Hk0 Hc0 Hos.
  destruct os as [|o os]; [simpl in Hos; lia|].
  assert (Hi : pending s !! length ts = Some t0)
    by (rewrite Hq; by apply list_lookup_middle).
  simpl; unfold settle; rewrite Hi, Hrest.
  destruct (fetchLoop (finishFetch t0 o s) rest) as [s3 ot] eqn:Hloop.
  destruct (fetchLoop_inv _ _ _ _ Hloop) as (_ & Hti & Hq3 & Hot).
  destruct (finishFetch_inv t0 o s) as (_ & Hq2 & _ & Hl2 & Hti2).
  assert (HL : loadingTiles (finishFetch t0 o s) = L)
    by (rewrite Hl2, Hl; set_solver).
  assert (Hkeep : ∀ k img, tileImages s !! k = Some img →
                           tileImages s3 !! k = Some img).
  { intros k img Hk. rewrite Hti, Hti2. destruct o; try done.
    rewrite lookup_insert_ne; [done|]. intros <-. congruence. }
  destruct ot as [t'|].
  - destruct Hot as (sk & tl & p & Hsplit & _ & _ & _ & _ & Hn & Hl3 & _).
    apply needs_fetch_true in Hn as [Hc' Hn]. rewrite HL in Hn, Hl3.
    destruct (IH (t_rest t') ltac:(rewrite Hsplit, length_app; simpl; lia)
                os (set_pending (<[length ts:=t']> (pending s3)) s3) t' ts L)
      as (Hp & HLf & Hcf).
    + simpl. rewrite Hq3, Hq2, Hq. apply insert_last.
    + done.
    + done.
    + done.
    + simpl. by rewrite Hti.
    + rewrite Hsplit, length_app in Hos. simpl in Hos. lia.
    + split; [done|]. split; [done|].
      intros k img Hk. apply Hcf. simpl. by apply Hkeep.
  - destruct Hot as (Hl3 & _).
    assert (Hdel : delete (length ts) (pending s3) = ts)
      by (rewrite Hq3, Hq2, Hq; apply delete_last).
    rewrite drive_stops.
    2:{ simpl. rewrite Hdel. by apply lookup_ge_None. }
    simpl. split; [done|]. split; [by rewrite Hl3|done].
Qed.

(** X16: a visibility pass run to its end with no other handler in between
    ends: after at most one settled fetch per visible tile its activation
    is gone, the suspended activations and the in-flight set are what they
    were before the pass, and every entry of the cache is still there. *)
Theorem pass_ends_and_restores s os :
  (length (getVisibleTiles s) ≤ length os)%nat →
  pending (drive os (length (pending s)) (loadVisibleTiles s)) = pending s ∧
  loadingTiles (drive os (length (pending s)) (loadVisibleTiles s))
    = loadingTiles s ∧
  ∀ k img, tileImages s !! k = Some img →
    tileImages (drive os (length (pending s)) (loadVisibleTiles s)) !! k
      = Some img.
Proof.
  intros Hos. destruct (loadVisibleTiles_inv s) as (_ & Hti & [H|H]).
  - destruct H as (Hl & _ & Hq & _).
    rewrite drive_stops by (rewrite Hq; by apply lookup_ge_None).
    by rewrite Hq, Hl, Hti.
  - destruct H as (t & sk & tl & p & Hvis & _ & _ & _ & _ & Hn & Hl & _ & Hq).
    apply needs_fetch_true in Hn as [Hc Hn].
    destruct (drive_restores (t_rest t) os (loadVisibleTiles s) t (pending s)
                (loadingTiles s)) as (Hp & HL & Hk); try done.
    + by rewrite Hti.
    + rewrite Hvis, length_app in Hos. simpl in Hos. lia.
    + split; [done|]. split; [done|].
      intros k img Hki. apply Hk. by rewrite Hti.
Qed.

Lemma pass_ends_and_restores_witness :
  pending (drive [Loaded; NotFound; Loaded; TransportError] 0
             (loadVisibleTiles zoom_scenario)) = [] ∧
  loadingTiles (drive [Loaded; NotFound; Loaded; TransportError] 0
                  (loadVisibleTiles zoom_scenario)) = ∅.
Proof.
  destruct (pass_ends_and_restores zoom_scenario
              [Loaded; NotFound; Loaded; TransportError]) as (Hp & Hl & _).
  - vm_compute. lia.
  - split; [exact Hp|exact Hl].
Defined.

(** X17: a resize, a settling fetch, a button press and a button release
    never change the zoom, the pan or the selected product. *)
Theorem view_kept_by_resize_and_fetches e s s' :
  step e s = Some s' →
  match e with
  | EvResize _ _ | EvSettle _ _
  | EvMouseDown _ _ | EvMouseUp | EvTouchStart _ _ | EvTouchEnd =>
      zoom s' = zoom s ∧ pan s' = pan s ∧ currentProduct s' = currentProduct s
  | _ => True
  end.
Proof.
  destruct e; simpl; intros H; try (injection H as <-); try done.
  - unfold resizeCanvas. simpl. destruct (currentProduct s) eqn:Hp.
    + destruct (loadVisibleTiles_inv (set_canvas (Z.of_N w) (Z.of_N h) s))
        as ((-> & -> & -> & _) & _). done.
    + done.
  - unfold settle in H. destruct (pending s !! i) as [t|]; [|done].
    destruct (fetchLoop _ (t_rest t)) as [s3 ot] eqn:Hloop. injection H as <-.
    simpl.
    destruct (fetchLoop_inv _ _ _ _ Hloop) as ((-> & -> & -> & _) & _).
    by destruct (finishFetch_inv t o s) as ((-> & -> & -> & _) & _).
Qed.

Lemma view_kept_by_resize_and_fetches_witness :
  step (EvSettle 0 Loaded) (exec first_pass (initial 1024 768))
    = Some (exec (first_pass ++ [EvSettle 0 Loaded]) (initial 1024 768)) ∧
  zoom (exec (first_pass ++ [EvSettle 0 Loaded]) (initial 1024 768)) = 1.
Proof.
  assert (Hs : step (EvSettle 0 Loaded) (exec first_pass (initial 1024 768))
    = Some (exec (first_pass ++ [EvSettle 0 Loaded]) (initial 1024 768)))
    by (vm_compute; reflexivity).
  split; [exact Hs|].
  destruct (view_kept_by_resize_and_fetches _ _ _ Hs) as (Hz & _).
  etrans; [exact Hz|]. vm_compute. reflexivity.
Defined.
